(** * lcptools: core records, level-1 label packing, fingerprint hashing

    A shallow embedding of [core.h] / [core.c] (the [core] record, its four
    initialisers, the comparison macros and the 32-bit fingerprint hash) and
    of the binary layout of a parse result.

    Conventions.
    - C unsigned integers are [Z] with the wrap-around written out
      ([wrap32], [wrap64]); [int] values that stay small are plain [Z].
    - A C pointer into an array is the array (a list) and an offset; a
      dereference outside the array has no defined value ([None]).
    - Bytes in memory are [byte]; multi-byte loads and stores use the byte
      order of the usual hosts (little endian). *)

From Stdlib Require Import String ZArith List Lia Bool.
From Stdlib Require Import Init.Byte.
From coqutil Require Import Byte Word.LittleEndianList Z.bitblast.
Import ListNotations.
Local Open Scope Z_scope.

(** ** Machine integers and memory *)

Definition wrap32 (x : Z) : Z := x mod 2 ^ 32.
Definition wrap64 (x : Z) : Z := x mod 2 ^ 64.

Notation "x <- e ;; k" :=
  (match e with Some x => k | None => None end)
  (at level 61, e at next level, right associativity, only parsing).

(** [load arr p] is [*(arr + p)]. *)
Definition load {A : Type} (arr : list A) (p : Z) : option A :=
  if p <? 0 then None else nth_error arr (Z.to_nat p).

(** ** The core record (core.h) *)

(** [struct core { ulabel label; uint64_t start; uint64_t end; }].  The
    field [end] is spelled [end_]. *)
Record core : Type := mk_core { label : Z; start : Z; end_ : Z }.

(** ** Initialisers (core.c) *)

Section Alphabet.

(** The lookup tables [alphabet] and [rc_alphabet] of encoding.h, read
    through [(unsigned char)]; their entries are [int]. *)
Variable alphabet : byte -> Z.
Variable rc_alphabet : byte -> Z.

(** The expression
    [((distance - 2) << 6) | (char1 << 4) | (char2 << 2) | char3]
    as C evaluates it: [distance] is [uint64_t], the three codes are
    [int] and are converted to [uint64_t] by [|]; the result is stored
    in the 32-bit [label]. *)
Definition packed (distance char1 char2 char3 : Z) : Z :=
  wrap32
    (Z.lor
       (Z.lor
          (Z.lor (wrap64 (Z.shiftl (wrap64 (distance - 2)) 6))
                 (wrap64 (Z.shiftl char1 4)))
          (wrap64 (Z.shiftl char2 2)))
       (wrap64 char3)).

Definition init_core1 (mem : list byte) (begin distance start_index end_index : Z)
  : option core :=
  b1 <- load mem begin ;;
  b2 <- load mem (begin + distance - 2) ;;
  b3 <- load mem (begin + distance - 1) ;;
  let char1 := alphabet b1 in
  let char2 := alphabet b2 in
  let char3 := alphabet b3 in
  Some {| label := packed distance char1 char2 char3;
          start := start_index;
          end_ := end_index |}.

Definition init_core2 (mem : list byte) (begin distance start_index end_index : Z)
  : option core :=
  b1 <- load mem begin ;;
  b2 <- load mem (begin + distance - 2) ;;
  b3 <- load mem (begin + distance - 1) ;;
  let char1 := rc_alphabet b1 in
  let char2 := rc_alphabet b2 in
  let char3 := rc_alphabet b3 in
  Some {| label := packed distance char1 char2 char3;
          start := start_index;
          end_ := end_index |}.

End Alphabet.

Definition init_core4 (label0 start0 end0 : Z) : core :=
  {| label := label0; start := start0; end_ := end0 |}.

(** ** Comparison macros (core.h) *)

Definition core_eq (lhs rhs : core) : bool :=
  Z.land (label lhs) 3 =? Z.land (label rhs) 3.
Definition core_neq (lhs rhs : core) : bool :=
  negb (Z.land (label lhs) 3 =? Z.land (label rhs) 3).
Definition core_gt (lhs rhs : core) : bool :=
  Z.land (label lhs) 3 >? Z.land (label rhs) 3.
Definition core_lt (lhs rhs : core) : bool :=
  Z.land (label lhs) 3 <? Z.land (label rhs) 3.
Definition core_geq (lhs rhs : core) : bool :=
  Z.land (label lhs) 3 >=? Z.land (label rhs) 3.
Definition core_leq (lhs rhs : core) : bool :=
  Z.land (label lhs) 3 <=? Z.land (label rhs) 3.

(** ** The level-1 packing formula of the data model *)

(** [((L - 2) << 6) | (c1 << 4) | (c2 << 2) | c3] over the integers. *)
Definition pack_label (L c1 c2 c3 : Z) : Z :=
  Z.lor (Z.lor (Z.lor (Z.shiftl (L - 2) 6) (Z.shiftl c1 4)) (Z.shiftl c2 2)) c3.

(** Modelled from the spec: the forward and the reverse-complement table of
    encoding.h, which is not among the sources.  A, C, G, T (either case)
    get the codes 0, 1, 2, 3; the reverse-complement table pairs A with T
    and C with G; any other byte gets -1, which is no legitimate code. *)
Definition dna_alphabet (b : byte) : Z :=
  match b with
  | "A"%byte | "a"%byte => 0
  | "C"%byte | "c"%byte => 1
  | "G"%byte | "g"%byte => 2
  | "T"%byte | "t"%byte => 3
  | _ => -1
  end.

Definition dna_rc_alphabet (b : byte) : Z :=
  match b with
  | "A"%byte | "a"%byte => 3
  | "C"%byte | "c"%byte => 2
  | "G"%byte | "g"%byte => 1
  | "T"%byte | "t"%byte => 0
  | _ => -1
  end.

(** ** The fingerprint hash [murmurhash32] (core.c) *)

Definition murmur_c1 : Z := 0xcc9e2d51.
Definition murmur_c2 : Z := 0x1b873593.

(** [blocks[i]] for a [const uint32_t *blocks]: four bytes at byte offset
    [p], combined in host order. *)
Definition load32 (data : list byte) (p : Z) : option Z :=
  b0 <- load data p ;;
  b1 <- load data (p + 1) ;;
  b2 <- load data (p + 2) ;;
  b3 <- load data (p + 3) ;;
  Some (le_combine [b0; b1; b2; b3]).

(** [k1 *= c1; k1 = (k1 << 15) | (k1 >> (32 - 15)); k1 *= c2;] on
    [uint32_t]. *)
Definition mix_k1 (k1 : Z) : Z :=
  let k1 := wrap32 (k1 * murmur_c1) in
  let k1 := Z.lor (wrap32 (Z.shiftl k1 15)) (Z.shiftr k1 (32 - 15)) in
  wrap32 (k1 * murmur_c2).

(** [h1 ^= k1; h1 = (h1 << 15) | (h1 >> (32 - 15)); h1 = h1 * 5 + 0xe6546b64;] *)
Definition mix_h1 (h1 k1 : Z) : Z :=
  let h1 := Z.lxor h1 k1 in
  let h1 := Z.lor (wrap32 (Z.shiftl h1 15)) (Z.shiftr h1 (32 - 15)) in
  wrap32 (h1 * 5 + 0xe6546b64).

(** The loop [for (int i = -nblocks; i; i++)]; [blocks] points at
    [data + nblocks * 4], so [blocks[i]] sits at byte [4 * (nblocks + i)].
    The loop runs while [i] is not 0; [fuel] bounds the iterations. *)
Fixpoint blocks_loop (fuel : nat) (data : list byte) (nblocks i h1 : Z)
  : option Z :=
  match fuel with
  | O => None
  | S fuel' =>
      if i =? 0 then Some h1
      else
        k1 <- load32 data (4 * (nblocks + i)) ;;
        let k1 := mix_k1 k1 in
        let h1 := mix_h1 h1 k1 in
        blocks_loop fuel' data nblocks (i + 1) h1
  end.

(** The [switch (len & 3)] over the tail.  Cases 3 and 2 end in [break]:
    the [k1] they build is dropped. *)
Definition tail_switch (data : list byte) (nblocks len h1 : Z) : option Z :=
  let tail := nblocks * 4 in
  let k1 := 0 in
  match Z.land len 3 with
  | 3 =>
      t2 <- load data (tail + 2) ;;
      let k1 := Z.lxor k1 (Z.shiftl (byte.unsigned t2) 16) in
      Some h1
  | 2 =>
      t1 <- load data (tail + 1) ;;
      let k1 := Z.lxor k1 (Z.shiftl (byte.unsigned t1) 8) in
      Some h1
  | 1 =>
      t0 <- load data tail ;;
      let k1 := Z.lxor k1 (byte.unsigned t0) in
      let k1 := mix_k1 k1 in
      Some (Z.lxor h1 k1)
  | _ => Some h1
  end.

Definition fmix32 (h1 : Z) : Z :=
  let h1 := Z.lxor h1 (Z.shiftr h1 16) in
  let h1 := wrap32 (h1 * 0x85ebca6b) in
  let h1 := Z.lxor h1 (Z.shiftr h1 13) in
  let h1 := wrap32 (h1 * 0xc2b2ae35) in
  Z.lxor h1 (Z.shiftr h1 16).

(** [murmurhash32 key len seed]; [len] is an [int] and is taken to be
    non-negative, [seed] is a [uint32_t]. *)
Definition murmurhash32 (key : list byte) (len seed : Z) : option Z :=
  let data := key in
  let nblocks := Z.quot len 4 in
  let h1 := seed in
  h1 <- blocks_loop (S (Z.to_nat nblocks)) data nblocks (- nblocks) h1 ;;
  h1 <- tail_switch data nblocks len h1 ;;
  let h1 := Z.lxor h1 (wrap32 len) in
  Some (fmix32 h1).

(** ** The reference MurmurHash3 (x86, 32 bit) *)

(** The published algorithm the documentation of [murmurhash32] names:
    blocks of four bytes are mixed with [c1], a rotation by 15 and [c2],
    and folded into the state with a rotation by 13; the one to three
    remaining bytes are gathered into one word and mixed in; the length is
    XORed in and the 16/13/16 finalizer is applied. *)
Definition rotl32 (x r : Z) : Z :=
  Z.lor (wrap32 (Z.shiftl x r)) (Z.shiftr x (32 - r)).

Definition reference_mix_k1 (k1 : Z) : Z :=
  wrap32 (rotl32 (wrap32 (k1 * murmur_c1)) 15 * murmur_c2).

Definition reference_mix_h1 (h1 k1 : Z) : Z :=
  wrap32 (rotl32 (Z.lxor h1 k1) 13 * 5 + 0xe6546b64).

Fixpoint reference_body (key : list byte) (h1 : Z) : Z :=
  match key with
  | b0 :: b1 :: b2 :: b3 :: rest =>
      reference_body rest (reference_mix_h1 h1 (reference_mix_k1 (le_combine [b0; b1; b2; b3])))
  | [] => h1
  | tail => Z.lxor h1 (reference_mix_k1 (le_combine tail))
  end.

Definition murmur3_32_reference (key : list byte) (seed : Z) : Z :=
  fmix32 (Z.lxor (reference_body key seed) (wrap32 (Z.of_nat (length key)))).

(** ** [init_core3] (core.c) *)

(** The image in memory of an array of [ulabel]: four bytes a word. *)
Definition ulabel_bytes (data : list Z) : list byte := flat_map (le_split 4) data.

(** [sizeof(ulabel)] *)
Definition sizeof_ulabel : Z := 4.

Definition init_core3 (cores : list core) (begin distance : Z) : option core :=
  c_first <- load cores begin ;;
  c_last <- load cores (begin + distance - 1) ;;
  c_mid <- load cores (begin + distance - 2) ;;
  let data :=
    [label c_first; label c_mid; label c_last; wrap32 (wrap64 (distance - 2))] in
  h <- murmurhash32 (ulabel_bytes data) (4 * sizeof_ulabel) 42 ;;
  Some {| label := h; start := start c_first; end_ := end_ c_last |}.

(** The hash of a sequence of 32-bit words, word by word: what
    [murmurhash32] computes on the image of the words. *)
Definition hash_words (ws : list Z) (seed : Z) : Z :=
  fmix32
    (Z.lxor (fold_left (fun h1 w => mix_h1 h1 (mix_k1 w)) ws seed)
            (wrap32 (4 * Z.of_nat (length ws)))).

(** ** Sample data *)

Definition sample_cores : list core :=
  [ {| label := 193; start := 0; end_ := 5 |};
    {| label := 77; start := 4; end_ := 7 |};
    {| label := 1000; start := 6; end_ := 11 |};
    {| label := 130; start := 10; end_ := 14 |};
    {| label := 66; start := 13; end_ := 16 |} ].

(** Two cores agree on bits 0 and 1 of their labels. *)
Definition same_low_bits (x y : core) : Prop :=
  Z.testbit (label x) 0 = Z.testbit (label y) 0 /\
  Z.testbit (label x) 1 = Z.testbit (label y) 1.

(** ** The binary layout of a parse result *)

Module Serializer.

(** Modelled from the spec: the error kinds of the design (section 7);
    the reader reports [CorruptData]. *)
Inductive error : Type := InvalidSymbol | CorruptData.

Notation "'let*' p ':=' e 'in' k" :=
  (match e with inl err => inl err | inr p => k end)
  (at level 10, p pattern, e at level 100, k at level 200, only parsing).

(** Modelled from the spec: the persisted part of an ordered core
    sequence, the level counter and the cores in order (the declaration
    of the C structure is not available). *)
Record lps : Type := mk_lps { level : Z; cores : list core }.

(** Modelled from the spec: the record layout of the writer, whose source
    is not available: [label] in 4 bytes, [start] in 8, [end] in 8, little
    endian. *)
Definition write_core (c : core) : list byte :=
  le_split 4 (label c) ++ le_split 8 (start c) ++ le_split 8 (end_ c).

(** Modelled from the spec: [write], whose source is not available:
    [level] in 4 bytes, the core count in 8 bytes, then the records in
    sequence order. *)
Definition write (s : lps) : list byte :=
  le_split 4 (level s)
  ++ le_split 8 (Z.of_nat (length (cores s)))
  ++ flat_map write_core (cores s).

(** Modelled from the spec: the next [n] bytes of the stream, which must
    not end early. *)
Definition take (n : nat) (bs : list byte) : error + (list byte * list byte) :=
  if (length bs <? n)%nat then inl CorruptData
  else inr (firstn n bs, skipn n bs).

(** Modelled from the spec: a 4-byte field read as the [int] that
    [level] is. *)
Definition signed32 (x : Z) : Z := if x <? 2 ^ 31 then x else x - 2 ^ 32.

(** Modelled from the spec: one record of the reader, the inverse of
    [write_core]. *)
Definition read_core (bs : list byte) : error + (core * list byte) :=
  let* (l, bs) := take 4 bs in
  let* (s, bs) := take 8 bs in
  let* (e, bs) := take 8 bs in
  inr ({| label := le_combine l; start := le_combine s; end_ := le_combine e |}, bs).

(** Modelled from the spec: the declared number of records, and nothing
    after them. *)
Fixpoint read_cores (count : nat) (bs : list byte) : error + list core :=
  match count with
  | O => match bs with [] => inr [] | _ :: _ => inl CorruptData end
  | S count' =>
      let* (c, bs) := read_core bs in
      let* cs := read_cores count' bs in
      inr (c :: cs)
  end.

(** Modelled from the spec: [read], whose source is not available: the
    inverse of [write]; [CorruptData] when the stream ends early or the
    declared count does not match the records that follow. *)
Definition read (bs : list byte) : error + lps :=
  let* (lv, bs) := take 4 bs in
  let* (cnt, bs) := take 8 bs in
  let count := le_combine cnt in
  if Z.of_nat (length bs) =? 20 * count then
    let* cs := read_cores (Z.to_nat count) bs in
    inr {| level := signed32 (le_combine lv); cores := cs |}
  else inl CorruptData.

(** Values that fit their fields. *)
Definition core_wf (c : core) : Prop :=
  0 <= label c < 2 ^ 32 /\ 0 <= start c < 2 ^ 64 /\ 0 <= end_ c < 2 ^ 64.

Definition lps_wf (s : lps) : Prop :=
  - 2 ^ 31 <= level s < 2 ^ 31 /\
  Z.of_nat (length (cores s)) < 2 ^ 64 /\
  Forall core_wf (cores s).

End Serializer.

(** ** Notions used to state further properties *)

(** The state of the hash after the words [ws]. *)
Definition absorb (ws : list Z) (h1 : Z) : Z :=
  fold_left (fun h1 w => mix_h1 h1 (mix_k1 w)) ws h1.

(** The candidate inverse of [fmix32]: the three xor-shifts undone and the
    two multiplications undone with the inverses of the constants modulo
    2^32. *)
Definition fmix32_inverse (h : Z) : Z :=
  let h := Z.lxor h (Z.shiftr h 16) in
  let h := wrap32 (h * 0x7ed1b41d) in
  let h := Z.lxor (Z.lxor h (Z.shiftr h 13)) (Z.shiftr h 26) in
  let h := wrap32 (h * 0xa5cb9243) in
  Z.lxor h (Z.shiftr h 16).

(** The cores of the run [begin .. begin + distance) are non-empty ranges,
    ordered by start and by end. *)
Definition ordered_run (cores : list core) (begin distance : Z) : Prop :=
  (forall i x, begin <= i < begin + distance -> load cores i = Some x ->
               start x < end_ x) /\
  (forall i j x y, begin <= i -> i <= j -> j < begin + distance ->
                   load cores i = Some x -> load cores j = Some y ->
                   start x <= start y /\ end_ x <= end_ y).

(** ** Facts about level-1 packing *)

Lemma wrap64_small (x : Z) : 0 <= x < 2 ^ 64 -> wrap64 x = x.
Proof. intros H. unfold wrap64. now apply Z.mod_small. Qed.

Lemma wrap32_small (x : Z) : 0 <= x < 2 ^ 32 -> wrap32 x = x.
Proof. intros H. unfold wrap32. now apply Z.mod_small. Qed.

Lemma packed_wraps_pack_label (distance c1 c2 c3 : Z) :
  2 <= distance < 2 ^ 64 ->
  0 <= c1 <= 3 -> 0 <= c2 <= 3 -> 0 <= c3 <= 3 ->
  packed distance c1 c2 c3 = wrap32 (pack_label distance c1 c2 c3).
Proof.
  intros Hd H1 H2 H3. unfold packed, pack_label.
  rewrite (wrap64_small (distance - 2)) by lia.
  rewrite (wrap64_small (Z.shiftl c1 4)) by (rewrite Z.shiftl_mul_pow2; lia).
  rewrite (wrap64_small (Z.shiftl c2 2)) by (rewrite Z.shiftl_mul_pow2; lia).
  rewrite (wrap64_small c3) by lia.
  unfold wrap32, wrap64.
  rewrite <- !Z.land_ones by lia.
  Z.bitblast.
Qed.

Lemma pack_label_fits (distance c1 c2 c3 : Z) :
  2 <= distance <= 2 ^ 26 + 1 ->
  0 <= c1 <= 3 -> 0 <= c2 <= 3 -> 0 <= c3 <= 3 ->
  wrap32 (pack_label distance c1 c2 c3) = pack_label distance c1 c2 c3.
Proof.
  intros Hd H1 H2 H3. unfold pack_label.
  rewrite <- (Z.mod_small (distance - 2) (2 ^ 26)) by lia.
  rewrite <- (Z.mod_small c1 (2 ^ 2)) by lia.
  rewrite <- (Z.mod_small c2 (2 ^ 2)) by lia.
  rewrite <- (Z.mod_small c3 (2 ^ 2)) by lia.
  unfold wrap32.
  rewrite <- !Z.land_ones by lia.
  Z.bitblast.
Qed.

(** ** Facts about [load] *)

Lemma load_in_bounds {A : Type} (arr : list A) (p : Z) :
  0 <= p < Z.of_nat (length arr) -> exists a, load arr p = Some a.
Proof.
  intros H. unfold load.
  destruct (p <? 0) eqn:E; [apply Z.ltb_lt in E; lia|].
  destruct (nth_error arr (Z.to_nat p)) as [a|] eqn:N; [now exists a|].
  apply nth_error_None in N. lia.
Qed.

Lemma load_some_bounds {A : Type} (arr : list A) (p : Z) (a : A) :
  load arr p = Some a -> 0 <= p < Z.of_nat (length arr).
Proof.
  unfold load. destruct (p <? 0) eqn:E; [discriminate|].
  apply Z.ltb_ge in E. intros N.
  assert (Z.to_nat p < length arr)%nat by (apply nth_error_Some; congruence).
  lia.
Qed.

Lemma load_negative {A : Type} (arr : list A) (p : Z) :
  p < 0 -> load arr p = None.
Proof. intros H. unfold load. apply Z.ltb_lt in H. now rewrite H. Qed.

Lemma load_repeat {A : Type} (a : A) (n : nat) (p : Z) :
  0 <= p < Z.of_nat n -> load (repeat a n) p = Some a.
Proof.
  intros H. unfold load.
  destruct (p <? 0) eqn:E; [apply Z.ltb_lt in E; lia|].
  apply nth_error_repeat. lia.
Qed.

Lemma load_app_middle {A : Type} (pre span post : list A) (p : Z) :
  0 <= p < Z.of_nat (length span) ->
  load (pre ++ span ++ post) (Z.of_nat (length pre) + p) = load span p.
Proof.
  intros H. unfold load.
  destruct (Z.of_nat (length pre) + p <? 0) eqn:E1; [apply Z.ltb_lt in E1; lia|].
  destruct (p <? 0) eqn:E2; [apply Z.ltb_lt in E2; lia|].
  replace (Z.to_nat (Z.of_nat (length pre) + p))
    with (length pre + Z.to_nat p)%nat by lia.
  rewrite nth_error_app2 by lia.
  replace (length pre + Z.to_nat p - length pre)%nat with (Z.to_nat p) by lia.
  apply nth_error_app1. lia.
Qed.

(** ** [init_core1] and [init_core2] on a defined span *)

Section Level1.

Variable alphabet : byte -> Z.
Variable rc_alphabet : byte -> Z.

Lemma init_core1_defined mem begin distance s e b1 b2 b3 :
  load mem begin = Some b1 ->
  load mem (begin + distance - 2) = Some b2 ->
  load mem (begin + distance - 1) = Some b3 ->
  init_core1 alphabet mem begin distance s e =
  Some {| label := packed distance (alphabet b1) (alphabet b2) (alphabet b3);
          start := s; end_ := e |}.
Proof. intros L1 L2 L3. unfold init_core1. now rewrite L1, L2, L3. Qed.

Lemma init_core2_defined mem begin distance s e b1 b2 b3 :
  load mem begin = Some b1 ->
  load mem (begin + distance - 2) = Some b2 ->
  load mem (begin + distance - 1) = Some b3 ->
  init_core2 rc_alphabet mem begin distance s e =
  Some {| label := packed distance (rc_alphabet b1) (rc_alphabet b2) (rc_alphabet b3);
          start := s; end_ := e |}.
Proof. intros L1 L2 L3. unfold init_core2. now rewrite L1, L2, L3. Qed.

(** [init_core2] is [init_core1] run with the reverse-complement table:
    it reads the same three positions of the buffer it is handed, in the
    same (ascending) order. *)
Lemma init_core2_is_init_core1 mem begin distance s e :
  init_core2 rc_alphabet mem begin distance s e =
  init_core1 rc_alphabet mem begin distance s e.
Proof. reflexivity. Qed.

Lemma span_loads (mem : list byte) (begin distance : Z) :
  2 <= distance -> 0 <= begin ->
  begin + distance <= Z.of_nat (length mem) ->
  exists b1 b2 b3,
    load mem begin = Some b1 /\
    load mem (begin + distance - 2) = Some b2 /\
    load mem (begin + distance - 1) = Some b3.
Proof.
  intros Hd Hb Hn.
  destruct (load_in_bounds mem begin) as [b1 L1]; [lia|].
  destruct (load_in_bounds mem (begin + distance - 2)) as [b2 L2]; [lia|].
  destruct (load_in_bounds mem (begin + distance - 1)) as [b3 L3]; [lia|].
  now exists b1, b2, b3.
Qed.

(** The core built from a span does not see what surrounds the span. *)
Lemma init_core1_context_free (pre span post : list byte) distance s e :
  2 <= distance <= Z.of_nat (length span) ->
  init_core1 alphabet (pre ++ span ++ post) (Z.of_nat (length pre)) distance s e =
  init_core1 alphabet span 0 distance s e.
Proof.
  intros Hd. unfold init_core1.
  rewrite <- (Z.add_0_r (Z.of_nat (length pre))) at 1.
  rewrite (load_app_middle pre span post 0) by lia.
  replace (Z.of_nat (length pre) + distance - 2)
    with (Z.of_nat (length pre) + (0 + distance - 2)) by lia.
  rewrite (load_app_middle pre span post (0 + distance - 2)) by lia.
  replace (Z.of_nat (length pre) + distance - 1)
    with (Z.of_nat (length pre) + (0 + distance - 1)) by lia.
  rewrite (load_app_middle pre span post (0 + distance - 1)) by lia.
  reflexivity.
Qed.

End Level1.

(** C1 (as amended).  For a buffer holding at least [distance] bytes from
    [begin], with [3 <= distance], whose first, second-to-last and last
    byte encode to codes in 0..3, [init_core1] yields a core whose [start]
    and [end] are the given indices and whose label is the packing formula
    reduced to the 32 bits of the label field; the label is the formula
    itself whenever [distance <= 2^26 + 1].  Nothing but the three codes and
    the distance enters the label. *)
Theorem init_core1_label (alphabet : byte -> Z) (mem : list byte)
    (begin distance start_index end_index : Z) :
  3 <= distance < 2 ^ 64 ->
  0 <= begin ->
  begin + distance <= Z.of_nat (length mem) ->
  (forall b, load mem begin = Some b -> 0 <= alphabet b <= 3) ->
  (forall b, load mem (begin + distance - 2) = Some b -> 0 <= alphabet b <= 3) ->
  (forall b, load mem (begin + distance - 1) = Some b -> 0 <= alphabet b <= 3) ->
  exists b1 b2 b3 c,
    load mem begin = Some b1 /\
    load mem (begin + distance - 2) = Some b2 /\
    load mem (begin + distance - 1) = Some b3 /\
    init_core1 alphabet mem begin distance start_index end_index = Some c /\
    start c = start_index /\ end_ c = end_index /\
    label c = wrap32 (pack_label distance (alphabet b1) (alphabet b2) (alphabet b3)) /\
    (distance <= 2 ^ 26 + 1 ->
     label c = pack_label distance (alphabet b1) (alphabet b2) (alphabet b3)).
Proof.
  intros Hd Hb Hn C1 C2 C3.
  destruct (span_loads mem begin distance) as (b1 & b2 & b3 & L1 & L2 & L3);
    try lia.
  specialize (C1 b1 L1). specialize (C2 b2 L2). specialize (C3 b3 L3).
  exists b1, b2, b3.
  eexists.
  split; [exact L1|]. split; [exact L2|]. split; [exact L3|].
  split; [exact (init_core1_defined alphabet mem begin distance _ _ b1 b2 b3 L1 L2 L3)|].
  split; [reflexivity|]. split; [reflexivity|].
  cbn [label].
  rewrite packed_wraps_pack_label by lia.
  split; [reflexivity|].
  intros Hs. apply pack_label_fits; lia.
Qed.

Lemma init_core1_label_witness :
  exists b1 b2 b3 c,
    load (list_byte_of_string "GATTACA") 1 = Some b1 /\
    load (list_byte_of_string "GATTACA") (1 + 5 - 2) = Some b2 /\
    load (list_byte_of_string "GATTACA") (1 + 5 - 1) = Some b3 /\
    init_core1 dna_alphabet (list_byte_of_string "GATTACA") 1 5 1 6 = Some c /\
    start c = 1 /\ end_ c = 6 /\
    label c = wrap32 (pack_label 5 (dna_alphabet b1) (dna_alphabet b2) (dna_alphabet b3)) /\
    (5 <= 2 ^ 26 + 1 ->
     label c = pack_label 5 (dna_alphabet b1) (dna_alphabet b2) (dna_alphabet b3)).
Proof.
  apply (init_core1_label dna_alphabet (list_byte_of_string "GATTACA") 1 5 1 6).
  - lia.
  - lia.
  - vm_compute. discriminate.
  - intros b Hb. vm_compute in Hb. injection Hb as <-. vm_compute.
    split; discriminate.
  - intros b Hb. vm_compute in Hb. injection Hb as <-. vm_compute.
    split; discriminate.
  - intros b Hb. vm_compute in Hb. injection Hb as <-. vm_compute.
    split; discriminate.
Defined.

Example init_core1_GATTACA :
  init_core1 dna_alphabet (list_byte_of_string "GATTACA") 1 5 1 6
  = Some {| label := 193; start := 1; end_ := 6 |}.
Proof. vm_compute. reflexivity. Qed.

(** C1, as stated, fails once [(distance - 2) << 6] no longer fits the
    32-bit label: a span of [2^26 + 2] letters T gets label 63, not
    [2^32 + 63]. *)
Lemma init_core1_label_overflows :
  exists c,
    init_core1 dna_alphabet (repeat "T"%byte (Z.to_nat 67108866)) 0 67108866 0 67108866
    = Some c /\
    label c = 63 /\
    pack_label 67108866 3 3 3 = 4294967359 /\
    label c <> pack_label 67108866 3 3 3.
Proof.
  assert (L : forall p, 0 <= p < 67108866 ->
            load (repeat "T"%byte (Z.to_nat 67108866)) p = Some "T"%byte).
  { intros p Hp. apply load_repeat. rewrite Z2Nat.id; lia. }
  exists {| label := 63; start := 0; end_ := 67108866 |}.
  split.
  - rewrite (init_core1_defined dna_alphabet _ 0 67108866 0 67108866 "T" "T" "T");
      [ | apply L; lia | apply L; lia | apply L; lia ].
    reflexivity.
  - cbn [label]. repeat split.
    vm_compute. discriminate.
Qed.

(** Published test vectors of the reference. *)
Example reference_vector_empty : murmur3_32_reference [] 0 = 0.
Proof. vm_compute. reflexivity. Qed.

Example reference_vector_empty_seed1 : murmur3_32_reference [] 1 = 0x514E28B7.
Proof. vm_compute. reflexivity. Qed.

Example reference_vector_abc :
  murmur3_32_reference (list_byte_of_string "abc") 0 = 0xB3DD93FA.
Proof. vm_compute. reflexivity. Qed.

Example reference_vector_test :
  murmur3_32_reference (list_byte_of_string "test") 0 = 0xBA6BD213.
Proof. vm_compute. reflexivity. Qed.

Example reference_vector_hello :
  murmur3_32_reference (list_byte_of_string "Hello, world!") 0x9747b28c = 0x24884CBA.
Proof. vm_compute. reflexivity. Qed.

Example reference_vector_fox :
  murmur3_32_reference
    (list_byte_of_string "The quick brown fox jumps over the lazy dog") 0x9747b28c
  = 0x2FA826CD.
Proof. vm_compute. reflexivity. Qed.

(** ** Facts about [murmurhash32] *)

Lemma blocks_loop_step fuel data nblocks i h1 :
  i <> 0 ->
  blocks_loop (S fuel) data nblocks i h1 =
  (k1 <- load32 data (4 * (nblocks + i)) ;;
   blocks_loop fuel data nblocks (i + 1) (mix_h1 h1 (mix_k1 k1))).
Proof.
  intros Hi. cbn [blocks_loop].
  destruct (i =? 0) eqn:E; [apply Z.eqb_eq in E; contradiction|].
  reflexivity.
Qed.

Lemma blocks_loop_done fuel data nblocks h1 :
  blocks_loop (S fuel) data nblocks 0 h1 = Some h1.
Proof. reflexivity. Qed.

Lemma load32_ext (data data' : list byte) (p : Z) :
  (forall q, p <= q < p + 4 -> load data q = load data' q) ->
  load32 data p = load32 data' p.
Proof.
  intros H. unfold load32.
  rewrite (H p), (H (p + 1)), (H (p + 2)), (H (p + 3)) by lia.
  reflexivity.
Qed.

Lemma load32_in_bounds (data : list byte) (p : Z) :
  0 <= p -> p + 4 <= Z.of_nat (length data) ->
  exists w, load32 data p = Some w.
Proof.
  intros Hp Hn. unfold load32.
  destruct (load_in_bounds data p) as [b0 L0]; [lia|].
  destruct (load_in_bounds data (p + 1)) as [b1 L1]; [lia|].
  destruct (load_in_bounds data (p + 2)) as [b2 L2]; [lia|].
  destruct (load_in_bounds data (p + 3)) as [b3 L3]; [lia|].
  rewrite L0, L1, L2, L3. eauto.
Qed.

(** The block loop reads only the bytes of the blocks. *)
Lemma blocks_loop_ext (data data' : list byte) (nblocks : Z) :
  forall (k : nat) (h1 : Z),
    (forall q, 4 * (nblocks - Z.of_nat k) <= q < 4 * nblocks ->
               load data q = load data' q) ->
    blocks_loop (S k) data nblocks (- Z.of_nat k) h1 =
    blocks_loop (S k) data' nblocks (- Z.of_nat k) h1.
Proof.
  induction k as [|k IH]; intros h1 H.
  - reflexivity.
  - rewrite !blocks_loop_step by lia.
    rewrite (load32_ext data data') by (intros q Hq; apply H; lia).
    destruct (load32 data' (4 * (nblocks + - Z.of_nat (S k)))) as [w|]; [|reflexivity].
    replace (- Z.of_nat (S k) + 1) with (- Z.of_nat k) by lia.
    apply IH. intros q Hq. apply H. lia.
Qed.

(** The block loop ends, with a result, when its blocks lie in the array. *)
Lemma blocks_loop_total (data : list byte) (nblocks : Z) :
  forall (k : nat) (h1 : Z),
    0 <= nblocks - Z.of_nat k ->
    4 * nblocks <= Z.of_nat (length data) ->
    exists h, blocks_loop (S k) data nblocks (- Z.of_nat k) h1 = Some h.
Proof.
  induction k as [|k IH]; intros h1 Hk Hn.
  - now exists h1.
  - rewrite blocks_loop_step by lia.
    destruct (load32_in_bounds data (4 * (nblocks + - Z.of_nat (S k)))) as [w Hw];
      [lia|lia|].
    rewrite Hw.
    replace (- Z.of_nat (S k) + 1) with (- Z.of_nat k) by lia.
    apply IH; lia.
Qed.

Lemma land3_cases (len : Z) :
  0 <= len ->
  Z.land len 3 = len mod 4 /\ 0 <= len mod 4 < 4 /\ len = 4 * Z.quot len 4 + len mod 4.
Proof.
  intros H. split; [|split].
  - change 3 with (Z.ones 2). rewrite Z.land_ones by lia. reflexivity.
  - apply Z.mod_pos_bound. lia.
  - rewrite Z.quot_div_nonneg by lia. apply Z.div_mod. lia.
Qed.

(** [murmurhash32] returns a value on every array that holds [len] bytes. *)
Lemma murmurhash32_total (key : list byte) (len seed : Z) :
  0 <= len <= Z.of_nat (length key) ->
  exists h, murmurhash32 key len seed = Some h.
Proof.
  intros Hlen. unfold murmurhash32.
  destruct (land3_cases len) as (Hl & Hm & Hq); [lia|].
  assert (Hnb : 0 <= Z.quot len 4) by (apply Z.quot_pos; lia).
  destruct (blocks_loop_total key (Z.quot len 4) (Z.to_nat (Z.quot len 4)) seed)
    as [h Hh]; [lia|lia|].
  rewrite Z2Nat.id in Hh by lia. rewrite Hh.
  unfold tail_switch. rewrite Hl.
  assert (C : len mod 4 = 0 \/ len mod 4 = 1 \/ len mod 4 = 2 \/ len mod 4 = 3) by lia.
  destruct C as [C|[C|[C|C]]]; rewrite C.
  - eauto.
  - destruct (load_in_bounds key (Z.quot len 4 * 4)) as [t L]; [lia|].
    rewrite L. eauto.
  - destruct (load_in_bounds key (Z.quot len 4 * 4 + 1)) as [t L]; [lia|].
    rewrite L. eauto.
  - destruct (load_in_bounds key (Z.quot len 4 * 4 + 2)) as [t L]; [lia|].
    rewrite L. eauto.
Qed.

(** X3.  When [len mod 4] is 2 or 3 the bytes after the last whole block never
    reach the hash: two arrays that agree on the whole blocks hash alike. *)
Lemma murmurhash32_drops_tail (key key' : list byte) (len seed : Z) :
  0 <= len <= Z.of_nat (length key) ->
  len <= Z.of_nat (length key') ->
  len mod 4 = 2 \/ len mod 4 = 3 ->
  (forall q, 0 <= q < 4 * Z.quot len 4 -> load key q = load key' q) ->
  murmurhash32 key len seed = murmurhash32 key' len seed.
Proof.
  intros Hlen Hlen' Hmod Hagree. unfold murmurhash32.
  destruct (land3_cases len) as (Hl & Hm & Hq); [lia|].
  assert (Hnb : 0 <= Z.quot len 4) by (apply Z.quot_pos; lia).
  pose proof (blocks_loop_ext key key' (Z.quot len 4) (Z.to_nat (Z.quot len 4)) seed) as E.
  rewrite Z2Nat.id in E by lia.
  rewrite E by (intros q Hr; apply Hagree; lia).
  destruct (blocks_loop _ key' _ _ _) as [h|]; [|reflexivity].
  unfold tail_switch. rewrite Hl.
  destruct Hmod as [C|C]; rewrite C.
  - destruct (load_in_bounds key (Z.quot len 4 * 4 + 1)) as [t L]; [lia|].
    destruct (load_in_bounds key' (Z.quot len 4 * 4 + 1)) as [t' L']; [lia|].
    rewrite L, L'. reflexivity.
  - destruct (load_in_bounds key (Z.quot len 4 * 4 + 2)) as [t L]; [lia|].
    destruct (load_in_bounds key' (Z.quot len 4 * 4 + 2)) as [t' L']; [lia|].
    rewrite L, L'. reflexivity.
Qed.

(** C3: where the code leaves the reference.  On "abc" (3 bytes, seed 0)
    the reference gives 0xB3DD93FA; [murmurhash32] gives the hash of any
    other 3 bytes, because the tail cases 3 and 2 [break] before the tail
    word is mixed in.  On "test" (one whole block) the reference gives
    0xBA6BD213; [murmurhash32] differs, because it rotates the state by 15
    where the reference rotates by 13. *)
Theorem murmurhash32_departs_from_reference :
  murmur3_32_reference (list_byte_of_string "abc") 0 = 0xB3DD93FA /\
  murmurhash32 (list_byte_of_string "abc") 3 0 = Some 0x85F0B427 /\
  murmurhash32 (list_byte_of_string "xyz") 3 0 = Some 0x85F0B427 /\
  murmurhash32 (list_byte_of_string "ab") 2 0 <>
    Some (murmur3_32_reference (list_byte_of_string "ab") 0) /\
  murmur3_32_reference (list_byte_of_string "test") 0 = 0xBA6BD213 /\
  murmurhash32 (list_byte_of_string "test") 4 0 = Some 0xD1E46DDE.
Proof. vm_compute. repeat split; discriminate. Qed.

Lemma wrap32_wrap64 (x : Z) : wrap32 (wrap64 x) = wrap32 x.
Proof.
  unfold wrap32, wrap64. rewrite <- !Z.land_ones by lia. Z.bitblast.
Qed.

Lemma le_split4_wrap32 (x : Z) : le_split 4 (wrap32 x) = le_split 4 x.
Proof. symmetry. apply (le_split_mod x 4). Qed.

Lemma mix_k1_wrap32 (w : Z) : mix_k1 (wrap32 w) = mix_k1 w.
Proof.
  unfold mix_k1, wrap32. now rewrite Z.mul_mod_idemp_l by lia.
Qed.

Lemma load32_le_split (pre post : list byte) (w : Z) :
  load32 (pre ++ le_split 4 w ++ post) (Z.of_nat (length pre)) = Some (wrap32 w).
Proof.
  unfold load32.
  pose proof (length_le_split 4 w) as Hlen.
  assert (L : forall q, 0 <= q < 4 ->
            load (pre ++ le_split 4 w ++ post) (Z.of_nat (length pre) + q)
            = load (le_split 4 w) q).
  { intros q Hq. apply load_app_middle. rewrite Hlen. lia. }
  rewrite <- (Z.add_0_r (Z.of_nat (length pre))) at 1.
  rewrite !L by lia.
  change (load (le_split 4 w) 0) with (Some (byte.of_Z w)).
  change (load (le_split 4 w) 1) with (Some (byte.of_Z (Z.shiftr w 8))).
  change (load (le_split 4 w) 2)
    with (Some (byte.of_Z (Z.shiftr (Z.shiftr w 8) 8))).
  change (load (le_split 4 w) 3)
    with (Some (byte.of_Z (Z.shiftr (Z.shiftr (Z.shiftr w 8) 8) 8))).
  cbv iota beta.
  change [byte.of_Z w; byte.of_Z (Z.shiftr w 8);
          byte.of_Z (Z.shiftr (Z.shiftr w 8) 8);
          byte.of_Z (Z.shiftr (Z.shiftr (Z.shiftr w 8) 8) 8)]
    with (le_split 4 w).
  rewrite le_combine_split. reflexivity.
Qed.

Lemma load32_word (data pre post : list byte) (w p : Z) :
  data = pre ++ le_split 4 w ++ post ->
  p = Z.of_nat (length pre) ->
  load32 data p = Some (wrap32 w).
Proof. intros -> ->. apply load32_le_split. Qed.

Lemma murmurhash32_ulabel4 (a b c d seed : Z) :
  murmurhash32 (ulabel_bytes [a; b; c; d]) 16 seed
  = Some (hash_words [a; b; c; d] seed).
Proof.
  unfold murmurhash32, ulabel_bytes, hash_words.
  cbn [flat_map fold_left length].
  change (Z.quot 16 4) with 4. change (Z.to_nat 4) with 4%nat.
  rewrite app_nil_r.
  rewrite blocks_loop_step by lia.
  rewrite (load32_word _ [] (le_split 4 b ++ le_split 4 c ++ le_split 4 d) a)
    by reflexivity.
  rewrite blocks_loop_step by lia.
  rewrite (load32_word _ (le_split 4 a) (le_split 4 c ++ le_split 4 d) b)
    by reflexivity.
  rewrite blocks_loop_step by lia.
  rewrite (load32_word _ (le_split 4 a ++ le_split 4 b) (le_split 4 d) c)
    by (rewrite <- ?app_assoc; reflexivity).
  rewrite blocks_loop_step by lia.
  rewrite (load32_word _ (le_split 4 a ++ le_split 4 b ++ le_split 4 c) [] d)
    by (rewrite <- ?app_assoc, ?app_nil_r; reflexivity).
  rewrite !mix_k1_wrap32.
  reflexivity.
Qed.

Lemma init_core3_defined (cores : list core) (begin distance : Z) c_first c_mid c_last :
  load cores begin = Some c_first ->
  load cores (begin + distance - 2) = Some c_mid ->
  load cores (begin + distance - 1) = Some c_last ->
  init_core3 cores begin distance =
  Some {| label := hash_words [label c_first; label c_mid; label c_last; distance - 2] 42;
          start := start c_first;
          end_ := end_ c_last |}.
Proof.
  intros L1 L2 L3. unfold init_core3. rewrite L1, L3, L2.
  unfold ulabel_bytes. cbn [flat_map].
  rewrite le_split4_wrap32, <- (le_split4_wrap32 (wrap64 (distance - 2))).
  rewrite wrap32_wrap64, le_split4_wrap32.
  change (4 * sizeof_ulabel) with 16.
  change (le_split 4 (label c_first) ++ le_split 4 (label c_mid) ++
          le_split 4 (label c_last) ++ le_split 4 (distance - 2) ++ [])
    with (ulabel_bytes [label c_first; label c_mid; label c_last; distance - 2]).
  rewrite murmurhash32_ulabel4. reflexivity.
Qed.

Lemma run_loads (cores : list core) (begin distance : Z) :
  2 <= distance -> 0 <= begin ->
  begin + distance <= Z.of_nat (length cores) ->
  exists c_first c_mid c_last,
    load cores begin = Some c_first /\
    load cores (begin + distance - 2) = Some c_mid /\
    load cores (begin + distance - 1) = Some c_last.
Proof.
  intros Hd Hb Hn.
  destruct (load_in_bounds cores begin) as [x1 L1]; [lia|].
  destruct (load_in_bounds cores (begin + distance - 2)) as [x2 L2]; [lia|].
  destruct (load_in_bounds cores (begin + distance - 1)) as [x3 L3]; [lia|].
  now exists x1, x2, x3.
Qed.

(** What [init_core3] builds.  For a run of [distance >= 2] cores starting
    at [begin], [init_core3] yields a core whose label is [murmurhash32], seed 42, of
    the 16 bytes holding the four 32-bit words (label of the first core,
    label of the second-to-last core, label of the last core,
    [distance - 2]), whose [start] is the first core's and whose [end] is
    the last core's.  Any other run of the same length with the same three
    labels gets the same label, whatever lies in between. *)
Theorem init_core3_label (cores : list core) (begin distance : Z) :
  2 <= distance ->
  0 <= begin ->
  begin + distance <= Z.of_nat (length cores) ->
  exists c_first c_mid c_last c,
    load cores begin = Some c_first /\
    load cores (begin + distance - 2) = Some c_mid /\
    load cores (begin + distance - 1) = Some c_last /\
    init_core3 cores begin distance = Some c /\
    murmurhash32
      (ulabel_bytes [label c_first; label c_mid; label c_last; distance - 2]) 16 42
    = Some (label c) /\
    start c = start c_first /\
    end_ c = end_ c_last /\
    (forall (cores' : list core) (begin' : Z) c_first' c_mid' c_last',
        load cores' begin' = Some c_first' ->
        load cores' (begin' + distance - 2) = Some c_mid' ->
        load cores' (begin' + distance - 1) = Some c_last' ->
        label c_first' = label c_first ->
        label c_mid' = label c_mid ->
        label c_last' = label c_last ->
        exists c', init_core3 cores' begin' distance = Some c' /\
                   label c' = label c).
Proof.
  intros Hd Hb Hn.
  destruct (run_loads cores begin distance) as (x1 & x2 & x3 & L1 & L2 & L3);
    try lia.
  exists x1, x2, x3. eexists.
  split; [exact L1|]. split; [exact L2|]. split; [exact L3|].
  split; [exact (init_core3_defined cores begin distance x1 x2 x3 L1 L2 L3)|].
  split; [apply murmurhash32_ulabel4|].
  split; [reflexivity|]. split; [reflexivity|].
  intros cores' begin' y1 y2 y3 M1 M2 M3 E1 E2 E3.
  eexists. split.
  - exact (init_core3_defined cores' begin' distance y1 y2 y3 M1 M2 M3).
  - cbn [label]. now rewrite E1, E2, E3.
Qed.

Lemma init_core3_label_witness :
  exists c_first c_mid c_last c,
    load sample_cores 1 = Some c_first /\
    load sample_cores (1 + 4 - 2) = Some c_mid /\
    load sample_cores (1 + 4 - 1) = Some c_last /\
    init_core3 sample_cores 1 4 = Some c /\
    murmurhash32
      (ulabel_bytes [label c_first; label c_mid; label c_last; 4 - 2]) 16 42
    = Some (label c) /\
    start c = start c_first /\
    end_ c = end_ c_last /\
    (forall (cores' : list core) (begin' : Z) c_first' c_mid' c_last',
        load cores' begin' = Some c_first' ->
        load cores' (begin' + 4 - 2) = Some c_mid' ->
        load cores' (begin' + 4 - 1) = Some c_last' ->
        label c_first' = label c_first ->
        label c_mid' = label c_mid ->
        label c_last' = label c_last ->
        exists c', init_core3 cores' begin' 4 = Some c' /\
                   label c' = label c).
Proof.
  apply (init_core3_label sample_cores 1 4).
  - lia.
  - lia.
  - vm_compute. discriminate.
Defined.

Example init_core3_sample :
  init_core3 sample_cores 1 4
  = Some {| label := 0x8CF5ED1C; start := 4; end_ := 16 |}.
Proof. vm_compute. reflexivity. Qed.

(** ** Comparison: only the two low bits of the labels count *)

Lemma land3_same_low_bits (x y : core) :
  same_low_bits x y -> Z.land (label x) 3 = Z.land (label y) 3.
Proof.
  intros [H0 H1]. apply Z.bits_inj'. intros n Hn.
  rewrite !Z.land_spec.
  destruct (Z.eq_dec n 0) as [->|N0]; [now rewrite H0|].
  destruct (Z.eq_dec n 1) as [->|N1]; [now rewrite H1|].
  change 3 with (Z.ones 2). rewrite Z.ones_spec_high by lia.
  now rewrite !andb_false_r.
Qed.

(** C4.  Each comparison of two cores is the corresponding comparison of
    [label & 3]; replacing either core by one that has the same two low
    label bits (and any other label bits, [start] and [end]) changes no
    result. *)
Theorem comparisons_use_low_two_bits (a b a' b' : core) :
  same_low_bits a a' ->
  same_low_bits b b' ->
  (core_eq a b = true <-> Z.land (label a) 3 = Z.land (label b) 3) /\
  (core_neq a b = true <-> Z.land (label a) 3 <> Z.land (label b) 3) /\
  (core_lt a b = true <-> Z.land (label a) 3 < Z.land (label b) 3) /\
  (core_gt a b = true <-> Z.land (label a) 3 > Z.land (label b) 3) /\
  (core_geq a b = true <-> Z.land (label a) 3 >= Z.land (label b) 3) /\
  (core_leq a b = true <-> Z.land (label a) 3 <= Z.land (label b) 3) /\
  core_eq a' b' = core_eq a b /\
  core_neq a' b' = core_neq a b /\
  core_lt a' b' = core_lt a b /\
  core_gt a' b' = core_gt a b /\
  core_geq a' b' = core_geq a b /\
  core_leq a' b' = core_leq a b.
Proof.
  intros Ha Hb.
  apply land3_same_low_bits in Ha. apply land3_same_low_bits in Hb.
  unfold core_eq, core_neq, core_lt, core_gt, core_geq, core_leq.
  rewrite <- Ha, <- Hb.
  repeat split; try reflexivity.
  - apply Z.eqb_eq.
  - apply Z.eqb_eq.
  - intros H. apply negb_true_iff, Z.eqb_neq in H. exact H.
  - intros H. apply negb_true_iff, Z.eqb_neq. exact H.
  - apply Z.ltb_lt.
  - apply Z.ltb_lt.
  - intros H. apply Z.gtb_lt in H. lia.
  - intros H. apply Z.gtb_lt. lia.
  - intros H. apply Z.geb_le in H. lia.
  - intros H. apply Z.geb_le. lia.
  - apply Z.leb_le.
  - apply Z.leb_le.
Qed.

(** The cores of [test_core_operator_overloads], against cores with other
    high label bits and other ranges. *)
Lemma comparisons_use_low_two_bits_witness :
  let core1 := init_core4 10 0 0 in
  let core3 := init_core4 5 2 2 in
  let other1 := init_core4 4294967294 17 99 in
  let other3 := init_core4 193 3 8 in
  (core_eq core1 core3 = true <-> Z.land (label core1) 3 = Z.land (label core3) 3) /\
  (core_neq core1 core3 = true <-> Z.land (label core1) 3 <> Z.land (label core3) 3) /\
  (core_lt core1 core3 = true <-> Z.land (label core1) 3 < Z.land (label core3) 3) /\
  (core_gt core1 core3 = true <-> Z.land (label core1) 3 > Z.land (label core3) 3) /\
  (core_geq core1 core3 = true <-> Z.land (label core1) 3 >= Z.land (label core3) 3) /\
  (core_leq core1 core3 = true <-> Z.land (label core1) 3 <= Z.land (label core3) 3) /\
  core_eq other1 other3 = core_eq core1 core3 /\
  core_neq other1 other3 = core_neq core1 core3 /\
  core_lt other1 other3 = core_lt core1 core3 /\
  core_gt other1 other3 = core_gt core1 core3 /\
  core_geq other1 other3 = core_geq core1 core3 /\
  core_leq other1 other3 = core_leq core1 core3.
Proof.
  apply (comparisons_use_low_two_bits
           (init_core4 10 0 0) (init_core4 5 2 2)
           (init_core4 4294967294 17 99) (init_core4 193 3 8)).
  - split; reflexivity.
  - split; reflexivity.
Defined.

(** The assertions of [test_core_operator_overloads]. *)
Example test_core_operator_overloads :
  let core1 := init_core4 10 0 0 in
  let core2 := init_core4 10 1 1 in
  let core3 := init_core4 5 2 2 in
  core_eq core1 core2 = true /\ core_neq core1 core3 = true /\
  core_lt core3 core1 = true /\ core_gt core1 core3 = true /\
  core_geq core1 core2 = true /\ core_leq core3 core1 = true.
Proof. repeat split. Qed.

(** ** Bounds of the initialisers *)

(** C10.  None of the three initialisers checks its arguments.  When the
    array holds [distance >= 2] elements from [begin], the three
    positions [begin], [begin + distance - 2], [begin + distance - 1] lie
    in the array and each initialiser returns a core.  When
    [distance < 2], position [begin + distance - 2] lies before [begin],
    outside the range [begin .. begin + distance); on an array that
    starts at [begin] every initialiser is then undefined. *)
Theorem initialisers_need_distance_2
    (alphabet rc_alphabet : byte -> Z)
    (mem : list byte) (cores : list core) (begin distance s e : Z) :
  (2 <= distance ->
   0 <= begin ->
   begin + distance <= Z.of_nat (length mem) ->
   begin + distance <= Z.of_nat (length cores) ->
   (exists b1 b2 b3,
       load mem begin = Some b1 /\
       load mem (begin + distance - 2) = Some b2 /\
       load mem (begin + distance - 1) = Some b3) /\
   (exists x1 x2 x3,
       load cores begin = Some x1 /\
       load cores (begin + distance - 2) = Some x2 /\
       load cores (begin + distance - 1) = Some x3) /\
   (exists c, init_core1 alphabet mem begin distance s e = Some c) /\
   (exists c, init_core2 rc_alphabet mem begin distance s e = Some c) /\
   (exists c, init_core3 cores begin distance = Some c)) /\
  (0 <= distance < 2 ->
   ~ (begin <= begin + distance - 2 < begin + distance) /\
   init_core1 alphabet mem 0 distance s e = None /\
   init_core2 rc_alphabet mem 0 distance s e = None /\
   init_core3 cores 0 distance = None).
Proof.
  split.
  - intros Hd Hb Hm Hc.
    destruct (span_loads mem begin distance) as (b1 & b2 & b3 & L1 & L2 & L3);
      try lia.
    destruct (run_loads cores begin distance) as (x1 & x2 & x3 & M1 & M2 & M3);
      try lia.
    split; [now exists b1, b2, b3|].
    split; [now exists x1, x2, x3|].
    split; [|split].
    + eexists. exact (init_core1_defined alphabet mem begin distance s e b1 b2 b3 L1 L2 L3).
    + eexists. exact (init_core2_defined rc_alphabet mem begin distance s e b1 b2 b3 L1 L2 L3).
    + eexists. exact (init_core3_defined cores begin distance x1 x2 x3 M1 M2 M3).
  - intros Hd.
    assert (N1 : load mem (0 + distance - 2) = None) by (apply load_negative; lia).
    assert (N3 : load cores (0 + distance - 2) = None) by (apply load_negative; lia).
    split; [lia|].
    unfold init_core1, init_core2, init_core3. rewrite N1, N3.
    repeat split.
    + now destruct (load mem 0).
    + now destruct (load mem 0).
    + destruct (load cores 0); [|reflexivity].
      now destruct (load cores (0 + distance - 1)).
Qed.

Lemma initialisers_need_distance_2_witness :
  ((exists b1 b2 b3,
       load (list_byte_of_string "GATTACA") 1 = Some b1 /\
       load (list_byte_of_string "GATTACA") (1 + 2 - 2) = Some b2 /\
       load (list_byte_of_string "GATTACA") (1 + 2 - 1) = Some b3) /\
   (exists x1 x2 x3,
       load sample_cores 1 = Some x1 /\
       load sample_cores (1 + 2 - 2) = Some x2 /\
       load sample_cores (1 + 2 - 1) = Some x3) /\
   (exists c, init_core1 dna_alphabet (list_byte_of_string "GATTACA") 1 2 1 3 = Some c) /\
   (exists c, init_core2 dna_rc_alphabet (list_byte_of_string "GATTACA") 1 2 1 3 = Some c) /\
   (exists c, init_core3 sample_cores 1 2 = Some c)) /\
  (~ (0 <= 0 + 1 - 2 < 0 + 1) /\
   init_core1 dna_alphabet (list_byte_of_string "G") 0 1 0 1 = None /\
   init_core2 dna_rc_alphabet (list_byte_of_string "G") 0 1 0 1 = None /\
   init_core3 (firstn 1 sample_cores) 0 1 = None).
Proof.
  split.
  - apply (initialisers_need_distance_2 dna_alphabet dna_rc_alphabet
             (list_byte_of_string "GATTACA") sample_cores 1 2 1 3).
    + lia.
    + lia.
    + vm_compute. discriminate.
    + vm_compute. discriminate.
  - apply (initialisers_need_distance_2 dna_alphabet dna_rc_alphabet
             (list_byte_of_string "G") (firstn 1 sample_cores) 0 1 0 1).
    lia.
Defined.

(** ** Round trip of the binary layout *)

Module SerializerFacts.

Import Serializer.

Lemma take_exact (l rest : list byte) :
  take (length l) (l ++ rest) = inr (l, rest).
Proof.
  unfold take.
  destruct (length (l ++ rest) <? length l)%nat eqn:E.
  - apply Nat.ltb_lt in E. rewrite length_app in E. lia.
  - rewrite firstn_app, skipn_app, Nat.sub_diag, firstn_all, skipn_all.
    cbn [firstn skipn]. now rewrite app_nil_r.
Qed.

Lemma take_le_split (n : nat) (x : Z) (rest : list byte) :
  take n (le_split n x ++ rest) = inr (le_split n x, rest).
Proof.
  rewrite <- (length_le_split n x) at 1. apply take_exact.
Qed.

Lemma le_combine_split_small (n : nat) (x : Z) :
  0 <= x < 2 ^ (Z.of_nat n * 8) -> le_combine (le_split n x) = x.
Proof. intros H. rewrite le_combine_split. now apply Z.mod_small. Qed.

Lemma signed32_le_split (x : Z) :
  - 2 ^ 31 <= x < 2 ^ 31 -> signed32 (le_combine (le_split 4 x)) = x.
Proof.
  intros H. rewrite le_combine_split. unfold signed32.
  change (2 ^ (Z.of_nat 4 * 8)) with (2 ^ 32).
  destruct (Z_lt_dec x 0) as [Hneg|Hpos].
  - assert (E : x mod 2 ^ 32 = x + 2 ^ 32).
    { symmetry. apply (Z.mod_unique_pos _ _ (-1)); lia. }
    rewrite E. destruct (x + 2 ^ 32 <? 2 ^ 31) eqn:C; [apply Z.ltb_lt in C|]; lia.
  - rewrite Z.mod_small by lia.
    destruct (x <? 2 ^ 31) eqn:C; [reflexivity|apply Z.ltb_ge in C; lia].
Qed.

Lemma read_write_core (c : core) (rest : list byte) :
  core_wf c -> read_core (write_core c ++ rest) = inr (c, rest).
Proof.
  intros (Hl & Hs & He). unfold read_core, write_core.
  rewrite <- !app_assoc.
  rewrite !take_le_split.
  rewrite !le_combine_split_small by assumption.
  now destruct c.
Qed.

Lemma length_write_core (c : core) : length (write_core c) = 20%nat.
Proof. unfold write_core. now rewrite !length_app, !length_le_split. Qed.

Lemma length_write_cores (cs : list core) :
  Z.of_nat (length (flat_map write_core cs)) = 20 * Z.of_nat (length cs).
Proof.
  induction cs as [|c cs IH]; [reflexivity|].
  cbn [flat_map length]. rewrite length_app, length_write_core. lia.
Qed.

Lemma read_write_cores (cs : list core) :
  Forall core_wf cs ->
  read_cores (length cs) (flat_map write_core cs) = inr cs.
Proof.
  induction 1 as [|c cs Hc Hcs IH]; [reflexivity|].
  cbn [length flat_map read_cores].
  rewrite read_write_core by assumption.
  now rewrite IH.
Qed.

(** C8.  Reading back what [write] wrote gives the sequence that was
    written: the same level and the same cores (label, start, end), in
    the same order, for every sequence whose values fit their fields;
    non-empty sequences are a special case. *)
Theorem read_write (s : lps) :
  lps_wf s -> read (write s) = inr s.
Proof.
  intros (Hlevel & Hcount & Hcores). unfold read, write.
  rewrite take_le_split. rewrite take_le_split.
  rewrite le_combine_split_small by (change (2 ^ (Z.of_nat 8 * 8)) with (2 ^ 64); lia).
  rewrite length_write_cores, Z.eqb_refl, Nat2Z.id.
  rewrite read_write_cores by assumption.
  rewrite signed32_le_split by assumption.
  now destruct s.
Qed.

Lemma read_write_witness :
  read (write {| level := 1; cores := sample_cores |})
  = inr {| level := 1; cores := sample_cores |}.
Proof.
  apply (read_write {| level := 1; cores := sample_cores |}).
  split; [cbn; lia|]. split; [cbn; lia|].
  repeat constructor; cbn; lia.
Defined.

(** A stream cut short is rejected. *)
Example read_truncated :
  read (removelast (write {| level := 1; cores := sample_cores |}))
  = inl CorruptData.
Proof. vm_compute. reflexivity. Qed.

End SerializerFacts.

(** ** Reverse-complement labels *)

(** X17.  What [init_core2] yields when the buffer it is handed holds a span in
    reverse order: the packing of the reverse-complement codes of the
    span's last, second and first byte. *)
Lemma init_core2_on_reversed_span (rc_alphabet : byte -> Z) (span : list byte)
    (s e : Z) (first second last_ : byte) :
  (2 <= length span)%nat ->
  nth_error span 0 = Some first ->
  nth_error span 1 = Some second ->
  nth_error span (length span - 1) = Some last_ ->
  init_core2 rc_alphabet (rev span) 0 (Z.of_nat (length span)) s e =
  Some {| label := packed (Z.of_nat (length span))
                     (rc_alphabet last_) (rc_alphabet second) (rc_alphabet first);
          start := s; end_ := e |}.
Proof.
  intros Hlen H0 H1 Hl.
  assert (R : forall (i : nat) (b : byte),
             (i < length span)%nat ->
             nth_error span (length span - S i) = Some b ->
             load (rev span) (Z.of_nat i) = Some b).
  { intros i b Hi Hb. unfold load.
    destruct (Z.of_nat i <? 0) eqn:E; [apply Z.ltb_lt in E; lia|].
    rewrite Nat2Z.id, nth_error_rev.
    apply Nat.ltb_lt in Hi. rewrite Hi. exact Hb. }
  apply init_core2_defined.
  - apply (R 0%nat); [lia|]. exact Hl.
  - replace (0 + Z.of_nat (length span) - 2) with (Z.of_nat (length span - 2)) by lia.
    apply R; [lia|]. now replace (length span - S (length span - 2))%nat with 1%nat by lia.
  - replace (0 + Z.of_nat (length span) - 1) with (Z.of_nat (length span - 1)) by lia.
    apply R; [lia|]. now replace (length span - S (length span - 1))%nat with 0%nat by lia.
Qed.

(** On the span itself, in memory order, [init_core2] packs the codes of
    the first, second-to-last and last byte, as [init_core1] does. *)
Example init_core2_memory_order :
  init_core2 dna_rc_alphabet (list_byte_of_string "AACG") 0 4 0 4
  = Some {| label := 2 * 64 + 3 * 16 + 2 * 4 + 1; start := 0; end_ := 4 |} /\
  init_core2 dna_rc_alphabet (rev (list_byte_of_string "AACG")) 0 4 0 4
  = Some {| label := 2 * 64 + 1 * 16 + 3 * 4 + 3; start := 0; end_ := 4 |}.
Proof. vm_compute. split; reflexivity. Qed.

(** On the 16 bytes that [init_core3] hashes for the sample run the value
    of [murmurhash32] is not the reference's. *)
Example init_core3_label_not_reference :
  murmurhash32 (ulabel_bytes [77; 130; 66; 2]) 16 42 = Some 0x8CF5ED1C /\
  murmur3_32_reference (ulabel_bytes [77; 130; 66; 2]) 42 <> 0x8CF5ED1C.
Proof. vm_compute. split; [reflexivity|discriminate]. Qed.

(** C2: where [init_core3] leaves the claim.  The range, the four hashed
    words and the seed are as the claim says, but the hash applied is
    [murmurhash32], which rotates the state by 15 where the fingerprint
    hash, MurmurHash3, rotates by 13.  On the run of the four sample cores
    with labels 77, 1000, 130, 66 the tuple is (77, 130, 66, 2): its
    MurmurHash3 value under seed 42 is 0x17011AF1, and [init_core3] sets
    the label to 0x8CF5ED1C. *)
Theorem init_core3_label_departs_from_fingerprint :
  load sample_cores 1 = Some {| label := 77; start := 4; end_ := 7 |} /\
  load sample_cores (1 + 4 - 2) = Some {| label := 130; start := 10; end_ := 14 |} /\
  load sample_cores (1 + 4 - 1) = Some {| label := 66; start := 13; end_ := 16 |} /\
  murmur3_32_reference (ulabel_bytes [77; 130; 66; 4 - 2]) 42 = 0x17011AF1 /\
  init_core3 sample_cores 1 4
  = Some {| label := 0x8CF5ED1C; start := 4; end_ := 16 |} /\
  0x8CF5ED1C <> 0x17011AF1.
Proof.
  split; [reflexivity|]. split; [reflexivity|]. split; [reflexivity|].
  split; [vm_compute; reflexivity|].
  split; [vm_compute; reflexivity|discriminate].
Qed.

(** * Further properties of the code *)

Lemma wrap32_range (x : Z) : 0 <= wrap32 x < 2 ^ 32.
Proof. unfold wrap32. apply Z.mod_pos_bound. lia. Qed.

Lemma wrap32_idem (x : Z) : wrap32 (wrap32 x) = wrap32 x.
Proof. apply wrap32_small, wrap32_range. Qed.

Lemma wrap32_mul_inverse (c cinv a : Z) :
  wrap32 (c * cinv) = 1 -> wrap32 (wrap32 (a * c) * cinv) = wrap32 a.
Proof.
  unfold wrap32. intros H.
  rewrite Z.mul_mod_idemp_l by lia.
  rewrite <- Z.mul_assoc, <- Z.mul_mod_idemp_r by lia.
  rewrite H. now rewrite Z.mul_1_r.
Qed.

Lemma as_land32 (x : Z) : 0 <= x < 2 ^ 32 -> x = Z.land x (Z.ones 32).
Proof. intros H. rewrite Z.land_ones by lia. symmetry. now apply Z.mod_small. Qed.

Lemma land32_range (x : Z) : 0 <= Z.land x (Z.ones 32) < 2 ^ 32.
Proof. rewrite Z.land_ones by lia. apply Z.mod_pos_bound. lia. Qed.

Lemma rotl32_range (x r : Z) : 0 <= x < 2 ^ 32 -> 0 <= r <= 32 -> 0 <= rotl32 x r < 2 ^ 32.
Proof.
  intros Hx Hr.
  assert (E : rotl32 x r = Z.land (rotl32 x r) (Z.ones 32)).
  { unfold rotl32, wrap32. rewrite (as_land32 x Hx).
    rewrite <- !Z.land_ones by lia. Z.bitblast. }
  rewrite E. apply land32_range.
Qed.

Ltac finish_bits :=
  subst;
  rewrite ?Z.land_spec, ?Z.testbit_ones by lia;
  repeat match goal with
         | |- context [?a <=? ?b] => destruct (Z.leb_spec a b); try lia
         | |- context [?a <? ?b] => destruct (Z.ltb_spec a b); try lia
         end;
  rewrite ?Z.testbit_neg_r by lia;
  cbn [negb andb orb];
  rewrite ?andb_true_r, ?andb_false_r, ?orb_false_r, ?orb_true_r;
  try reflexivity;
  repeat match goal with
         | |- context [Z.testbit ?a ?i] => destruct (Z.testbit a i)
         end;
  try reflexivity.

Lemma rotl32_15_17 (x : Z) : 0 <= x < 2 ^ 32 -> rotl32 (rotl32 x 15) 17 = x.
Proof.
  intros Hx. unfold rotl32, wrap32. rewrite (as_land32 x Hx).
  change (32 - 15) with 17. change (32 - 17) with 15.
  rewrite <- !Z.land_ones by lia. Z.bitblast. all: finish_bits. 
  all: try (f_equal; lia). 
Qed.
Lemma xorshift16_involutive (x : Z) :
  0 <= x < 2 ^ 32 ->
  Z.lxor (Z.lxor x (Z.shiftr x 16)) (Z.shiftr (Z.lxor x (Z.shiftr x 16)) 16) = x.
Proof.
  intros Hx. rewrite (as_land32 x Hx). Z.bitblast.
Qed.

Lemma xorshift13_inverse (x : Z) :
  0 <= x < 2 ^ 32 ->
  let y := Z.lxor x (Z.shiftr x 13) in
  Z.lxor (Z.lxor y (Z.shiftr y 13)) (Z.shiftr y 26) = x.
Proof.
  intros Hx y. subst y. rewrite (as_land32 x Hx). Z.bitblast.
Qed.

Lemma xorshift_range (x s : Z) :
  0 <= x < 2 ^ 32 -> 0 <= s -> 0 <= Z.lxor x (Z.shiftr x s) < 2 ^ 32.
Proof.
  intros Hx Hs.
  assert (E : Z.lxor x (Z.shiftr x s) = Z.land (Z.lxor x (Z.shiftr x s)) (Z.ones 32)).
  { rewrite (as_land32 x Hx). Z.bitblast. }
  rewrite E. apply land32_range.
Qed.

Lemma xorshift13_right (x : Z) :
  0 <= x < 2 ^ 32 ->
  let z := Z.lxor (Z.lxor x (Z.shiftr x 13)) (Z.shiftr x 26) in
  Z.lxor z (Z.shiftr z 13) = x.
Proof.
  intros Hx z. subst z. rewrite (as_land32 x Hx). Z.bitblast.
Qed.

Lemma unxorshift13_range (x : Z) :
  0 <= x < 2 ^ 32 ->
  0 <= Z.lxor (Z.lxor x (Z.shiftr x 13)) (Z.shiftr x 26) < 2 ^ 32.
Proof.
  intros Hx.
  assert (E : Z.lxor (Z.lxor x (Z.shiftr x 13)) (Z.shiftr x 26)
              = Z.land (Z.lxor (Z.lxor x (Z.shiftr x 13)) (Z.shiftr x 26)) (Z.ones 32)).
  { rewrite (as_land32 x Hx). Z.bitblast. }
  rewrite E. apply land32_range.
Qed.

Lemma lxor_range (a b : Z) :
  0 <= a < 2 ^ 32 -> 0 <= b < 2 ^ 32 -> 0 <= Z.lxor a b < 2 ^ 32.
Proof.
  intros Ha Hb.
  assert (E : Z.lxor a b = Z.land (Z.lxor a b) (Z.ones 32)).
  { rewrite (as_land32 a Ha), (as_land32 b Hb). Z.bitblast. }
  rewrite E. apply land32_range.
Qed.

Lemma lxor_cancel_r (a b c : Z) : Z.lxor a c = Z.lxor b c -> a = b.
Proof.
  intros H. apply (f_equal (fun z => Z.lxor z c)) in H.
  now rewrite !Z.lxor_assoc, Z.lxor_nilpotent, !Z.lxor_0_r in H.
Qed.

Lemma lxor_cancel_l (a b c : Z) : Z.lxor c a = Z.lxor c b -> a = b.
Proof. rewrite !(Z.lxor_comm c). apply lxor_cancel_r. Qed.

Lemma fmix32_range (h : Z) : 0 <= fmix32 h < 2 ^ 32.
Proof.
  unfold fmix32. apply xorshift_range; [apply wrap32_range|lia].
Qed.

Lemma fmix32_inverse_left (h : Z) :
  0 <= h < 2 ^ 32 -> fmix32_inverse (fmix32 h) = h.
Proof.
  intros Hh. unfold fmix32, fmix32_inverse. cbv zeta.
  pose proof (xorshift_range h 16 Hh ltac:(lia)) as R1.
  set (h1 := Z.lxor h (Z.shiftr h 16)) in *.
  pose proof (wrap32_range (h1 * 2246822507)) as R2.
  set (h2 := wrap32 (h1 * 2246822507)) in *.
  pose proof (xorshift_range h2 13 R2 ltac:(lia)) as R3.
  set (h3 := Z.lxor h2 (Z.shiftr h2 13)) in *.
  pose proof (wrap32_range (h3 * 3266489909)) as R4.
  set (h4 := wrap32 (h3 * 3266489909)) in *.
  rewrite (xorshift16_involutive h4 R4).
  unfold h4. rewrite (wrap32_mul_inverse 3266489909 2127672349 h3 eq_refl).
  rewrite (wrap32_small h3 R3).
  unfold h3. rewrite (xorshift13_inverse h2 R2).
  unfold h2. rewrite (wrap32_mul_inverse 2246822507 2781581891 h1 eq_refl).
  rewrite (wrap32_small h1 R1).
  unfold h1. apply (xorshift16_involutive h Hh).
Qed.

Lemma fmix32_inverse_right (h : Z) :
  0 <= h < 2 ^ 32 -> fmix32 (fmix32_inverse h) = h.
Proof.
  intros Hh. unfold fmix32, fmix32_inverse. cbv zeta.
  pose proof (xorshift_range h 16 Hh ltac:(lia)) as R1.
  set (h1 := Z.lxor h (Z.shiftr h 16)) in *.
  pose proof (wrap32_range (h1 * 2127672349)) as R2.
  set (h2 := wrap32 (h1 * 2127672349)) in *.
  pose proof (unxorshift13_range h2 R2) as R3.
  set (h3 := Z.lxor (Z.lxor h2 (Z.shiftr h2 13)) (Z.shiftr h2 26)) in *.
  pose proof (wrap32_range (h3 * 2781581891)) as R4.
  set (h4 := wrap32 (h3 * 2781581891)) in *.
  rewrite (xorshift16_involutive h4 R4).
  unfold h4. rewrite (wrap32_mul_inverse 2781581891 2246822507 h3 eq_refl).
  rewrite (wrap32_small h3 R3).
  unfold h3. rewrite (xorshift13_right h2 R2).
  unfold h2. rewrite (wrap32_mul_inverse 2127672349 3266489909 h1 eq_refl).
  rewrite (wrap32_small h1 R1).
  unfold h1. apply (xorshift16_involutive h Hh).
Qed.

Lemma fmix32_inverse_range (h : Z) : 0 <= fmix32_inverse h < 2 ^ 32.
Proof.
  unfold fmix32_inverse. apply xorshift_range; [apply wrap32_range|lia].
Qed.

Lemma fmix32_injective (a b : Z) :
  0 <= a < 2 ^ 32 -> 0 <= b < 2 ^ 32 -> fmix32 a = fmix32 b -> a = b.
Proof.
  intros Ha Hb E.
  rewrite <- (fmix32_inverse_left a Ha), <- (fmix32_inverse_left b Hb).
  now rewrite E.
Qed.

(** X6.  The finalizer of [murmurhash32] is a bijection of the 32-bit
    words, with [fmix32_inverse] as its inverse: it loses nothing of the
    state it is applied to. *)
Theorem fmix32_bijective (a b : Z) :
  0 <= a < 2 ^ 32 -> 0 <= b < 2 ^ 32 ->
  (fmix32 a = fmix32 b -> a = b) /\
  fmix32_inverse (fmix32 a) = a /\
  fmix32 (fmix32_inverse a) = a /\
  0 <= fmix32 a < 2 ^ 32 /\
  0 <= fmix32_inverse a < 2 ^ 32.
Proof.
  intros Ha Hb. split; [apply (fmix32_injective a b Ha Hb)|].
  split; [apply (fmix32_inverse_left a Ha)|].
  split; [apply (fmix32_inverse_right a Ha)|].
  split; [apply fmix32_range|apply fmix32_inverse_range].
Qed.

Lemma fmix32_bijective_witness :
  (fmix32 3 = fmix32 5 -> 3 = 5) /\
  fmix32_inverse (fmix32 3) = 3 /\
  fmix32 (fmix32_inverse 3) = 3 /\
  0 <= fmix32 3 < 2 ^ 32 /\
  0 <= fmix32_inverse 3 < 2 ^ 32.
Proof. apply (fmix32_bijective 3 5); lia. Defined.

Lemma mix_k1_range (w : Z) : 0 <= mix_k1 w < 2 ^ 32.
Proof. unfold mix_k1. apply wrap32_range. Qed.

Lemma mix_h1_range (h k : Z) : 0 <= mix_h1 h k < 2 ^ 32.
Proof. unfold mix_h1. apply wrap32_range. Qed.

Lemma mix_k1_injective (w w' : Z) : mix_k1 w = mix_k1 w' -> wrap32 w = wrap32 w'.
Proof.
  unfold mix_k1. cbv zeta. intros E.
  change (Z.lor (wrap32 (Z.shiftl (wrap32 (w * murmur_c1)) 15))
                (Z.shiftr (wrap32 (w * murmur_c1)) (32 - 15)))
    with (rotl32 (wrap32 (w * murmur_c1)) 15) in E.
  change (Z.lor (wrap32 (Z.shiftl (wrap32 (w' * murmur_c1)) 15))
                (Z.shiftr (wrap32 (w' * murmur_c1)) (32 - 15)))
    with (rotl32 (wrap32 (w' * murmur_c1)) 15) in E.
  apply (f_equal (fun z => wrap32 (z * 1458385051))) in E.
  rewrite !(wrap32_mul_inverse murmur_c2 1458385051 _ eq_refl) in E.
  rewrite (wrap32_small (rotl32 (wrap32 (w * murmur_c1)) 15)) in E
    by (apply rotl32_range; [apply wrap32_range|lia]).
  rewrite (wrap32_small (rotl32 (wrap32 (w' * murmur_c1)) 15)) in E
    by (apply rotl32_range; [apply wrap32_range|lia]).
  apply (f_equal (fun z => rotl32 z 17)) in E.
  rewrite (rotl32_15_17 (wrap32 (w * murmur_c1))) in E by apply wrap32_range.
  rewrite (rotl32_15_17 (wrap32 (w' * murmur_c1))) in E by apply wrap32_range.
  apply (f_equal (fun z => wrap32 (z * 3739302833))) in E.
  now rewrite !(wrap32_mul_inverse murmur_c1 3739302833 _ eq_refl) in E.
Qed.

Lemma mix_h1_injective (h k h' k' : Z) :
  0 <= h < 2 ^ 32 -> 0 <= k < 2 ^ 32 -> 0 <= h' < 2 ^ 32 -> 0 <= k' < 2 ^ 32 ->
  mix_h1 h k = mix_h1 h' k' -> Z.lxor h k = Z.lxor h' k'.
Proof.
  intros Hh Hk Hh' Hk'. unfold mix_h1. cbv zeta. intros E.
  change (Z.lor (wrap32 (Z.shiftl (Z.lxor h k) 15)) (Z.shiftr (Z.lxor h k) (32 - 15)))
    with (rotl32 (Z.lxor h k) 15) in E.
  change (Z.lor (wrap32 (Z.shiftl (Z.lxor h' k') 15)) (Z.shiftr (Z.lxor h' k') (32 - 15)))
    with (rotl32 (Z.lxor h' k') 15) in E.
  pose proof (lxor_range h k Hh Hk) as R.
  pose proof (lxor_range h' k' Hh' Hk') as R'.
  pose proof (rotl32_range _ 15 R ltac:(lia)) as Q.
  pose proof (rotl32_range _ 15 R' ltac:(lia)) as Q'.
  apply (f_equal (fun z => wrap32 (z - 3864292196))) in E.
  unfold wrap32 in E. rewrite !Zminus_mod_idemp_l in E.
  replace (rotl32 (Z.lxor h k) 15 * 5 + 3864292196 - 3864292196)
    with (rotl32 (Z.lxor h k) 15 * 5) in E by lia.
  replace (rotl32 (Z.lxor h' k') 15 * 5 + 3864292196 - 3864292196)
    with (rotl32 (Z.lxor h' k') 15 * 5) in E by lia.
  fold (wrap32 (rotl32 (Z.lxor h k) 15 * 5)) in E.
  fold (wrap32 (rotl32 (Z.lxor h' k') 15 * 5)) in E.
  apply (f_equal (fun z => wrap32 (z * 3435973837))) in E.
  rewrite !(wrap32_mul_inverse 5 3435973837 _ eq_refl) in E.
  rewrite (wrap32_small _ Q), (wrap32_small _ Q') in E.
  apply (f_equal (fun z => rotl32 z 17)) in E.
  now rewrite (rotl32_15_17 _ R), (rotl32_15_17 _ R') in E.
Qed.

Lemma absorb_range (ws : list Z) (h1 : Z) :
  0 <= h1 < 2 ^ 32 -> 0 <= absorb ws h1 < 2 ^ 32.
Proof.
  revert h1. induction ws as [|w ws IH]; intros h1 H; [exact H|].
  cbn [absorb fold_left]. apply IH, mix_h1_range.
Qed.

Lemma absorb_app (ws ws' : list Z) (h1 : Z) :
  absorb (ws ++ ws') h1 = absorb ws' (absorb ws h1).
Proof. apply fold_left_app. Qed.

Lemma absorb_injective (ws : list Z) (h h' : Z) :
  0 <= h < 2 ^ 32 -> 0 <= h' < 2 ^ 32 ->
  absorb ws h = absorb ws h' -> h = h'.
Proof.
  revert h h'. induction ws as [|w ws IH]; intros h h' Hh Hh' E; [exact E|].
  cbn [absorb fold_left] in E.
  apply IH in E; try apply mix_h1_range.
  apply mix_h1_injective in E; try assumption; try apply mix_k1_range.
  now apply lxor_cancel_r in E.
Qed.

Lemma hash_words_absorb (ws : list Z) (seed : Z) :
  hash_words ws seed =
  fmix32 (Z.lxor (absorb ws seed) (wrap32 (4 * Z.of_nat (length ws)))).
Proof. reflexivity. Qed.

Lemma hash_words_one_word (pre post : list Z) (w w' seed : Z) :
  0 <= seed < 2 ^ 32 ->
  hash_words (pre ++ w :: post) seed = hash_words (pre ++ w' :: post) seed ->
  wrap32 w = wrap32 w'.
Proof.
  intros Hs E. rewrite !hash_words_absorb in E.
  replace (length (pre ++ w' :: post)) with (length (pre ++ w :: post)) in E
    by (rewrite !length_app; reflexivity).
  apply fmix32_injective in E;
    try (apply lxor_range; [apply absorb_range; exact Hs|apply wrap32_range]).
  apply lxor_cancel_r in E.
  rewrite !absorb_app in E. cbn [absorb fold_left] in E.
  fold (absorb post (mix_h1 (absorb pre seed) (mix_k1 w))) in E.
  fold (absorb post (mix_h1 (absorb pre seed) (mix_k1 w'))) in E.
  apply absorb_injective in E; try apply mix_h1_range.
  apply mix_h1_injective in E;
    try apply mix_k1_range; try (apply absorb_range; exact Hs).
  apply lxor_cancel_l in E.
  now apply mix_k1_injective.
Qed.

Lemma tail_switch_ext (data data' : list byte) (nblocks len h1 : Z) :
  0 <= len -> nblocks = Z.quot len 4 ->
  (forall q, 0 <= q < len -> load data q = load data' q) ->
  tail_switch data nblocks len h1 = tail_switch data' nblocks len h1.
Proof.
  intros Hlen -> H. unfold tail_switch.
  destruct (land3_cases len Hlen) as (Hl & Hm & Hq). rewrite Hl.
  assert (C : len mod 4 = 0 \/ len mod 4 = 1 \/ len mod 4 = 2 \/ len mod 4 = 3) by lia.
  destruct C as [C|[C|[C|C]]]; rewrite C; try reflexivity.
  - now rewrite (H (Z.quot len 4 * 4)) by lia.
  - now rewrite (H (Z.quot len 4 * 4 + 1)) by lia.
  - now rewrite (H (Z.quot len 4 * 4 + 2)) by lia.
Qed.

Lemma murmurhash32_ext (key key' : list byte) (len seed : Z) :
  0 <= len ->
  (forall q, 0 <= q < len -> load key q = load key' q) ->
  murmurhash32 key len seed = murmurhash32 key' len seed.
Proof.
  intros Hlen H. unfold murmurhash32.
  destruct (land3_cases len Hlen) as (Hl & Hm & Hq).
  assert (Hnb : 0 <= Z.quot len 4) by (apply Z.quot_pos; lia).
  pose proof (blocks_loop_ext key key' (Z.quot len 4) (Z.to_nat (Z.quot len 4)) seed) as E.
  rewrite Z2Nat.id in E by lia.
  rewrite E by (intros q Hr; apply H; lia).
  destruct (blocks_loop _ key' _ _ _) as [h|]; [|reflexivity].
  now rewrite (tail_switch_ext key key' _ len h Hlen eq_refl H).
Qed.

Lemma load_app_l {A : Type} (l l' : list A) (q : Z) :
  0 <= q < Z.of_nat (length l) -> load (l ++ l') q = load l q.
Proof.
  intros H. unfold load.
  destruct (q <? 0) eqn:E; [reflexivity|].
  apply nth_error_app1. lia.
Qed.

Lemma load_firstn {A : Type} (l : list A) (n : nat) (q : Z) :
  0 <= q < Z.of_nat n -> load (firstn n l) q = load l q.
Proof.
  intros H. unfold load.
  destruct (q <? 0) eqn:E; [reflexivity|].
  rewrite nth_error_firstn.
  destruct (Z.to_nat q <? n)%nat eqn:C; [reflexivity|].
  apply Nat.ltb_ge in C. lia.
Qed.

Lemma load32_some_bounds (data : list byte) (p w : Z) :
  load32 data p = Some w -> 0 <= p /\ p + 4 <= Z.of_nat (length data).
Proof.
  unfold load32.
  destruct (load data p) as [b0|] eqn:L0; [|discriminate].
  destruct (load data (p + 1)) as [b1|]; [|discriminate].
  destruct (load data (p + 2)) as [b2|]; [|discriminate].
  destruct (load data (p + 3)) as [b3|] eqn:L3; [|discriminate].
  intros _. apply load_some_bounds in L0. apply load_some_bounds in L3. lia.
Qed.

Lemma blocks_loop_some_bounds (data : list byte) (nblocks : Z) :
  forall (k : nat) (h1 r : Z),
    (1 <= k)%nat ->
    blocks_loop (S k) data nblocks (- Z.of_nat k) h1 = Some r ->
    4 * nblocks <= Z.of_nat (length data).
Proof.
  induction k as [|k IH]; intros h1 r Hk E; [lia|].
  rewrite blocks_loop_step in E by lia.
  destruct (load32 data (4 * (nblocks + - Z.of_nat (S k)))) as [w|] eqn:L;
    [|discriminate].
  replace (- Z.of_nat (S k) + 1) with (- Z.of_nat k) in E by lia.
  destruct k as [|k'].
  - apply load32_some_bounds in L. lia.
  - apply (IH _ _ ltac:(lia) E).
Qed.

Lemma tail_switch_some_bounds (data : list byte) (len h1 r : Z) :
  0 <= len -> len mod 4 <> 0 ->
  tail_switch data (Z.quot len 4) len h1 = Some r ->
  len <= Z.of_nat (length data).
Proof.
  intros Hlen Hm0. unfold tail_switch.
  destruct (land3_cases len Hlen) as (Hl & Hm & Hq). rewrite Hl.
  assert (C : len mod 4 = 1 \/ len mod 4 = 2 \/ len mod 4 = 3) by lia.
  destruct C as [C|[C|C]]; rewrite C.
  - destruct (load data (Z.quot len 4 * 4)) eqn:L; [|discriminate].
    apply load_some_bounds in L. lia.
  - destruct (load data (Z.quot len 4 * 4 + 1)) eqn:L; [|discriminate].
    apply load_some_bounds in L. lia.
  - destruct (load data (Z.quot len 4 * 4 + 2)) eqn:L; [|discriminate].
    apply load_some_bounds in L. lia.
Qed.

(** X1.  [murmurhash32] reads byte [len - 1] whatever [len mod 4] is: it
    returns a value, and then a 32-bit one for any seed, exactly when the
    array holds [len] bytes. *)
Theorem murmurhash32_defined_iff (key : list byte) (len seed : Z) :
  0 <= len ->
  (exists h, murmurhash32 key len seed = Some h /\ 0 <= h < 2 ^ 32) <->
  len <= Z.of_nat (length key).
Proof.
  intros Hlen. split.
  - intros (h & E & _). unfold murmurhash32 in E.
    destruct (land3_cases len Hlen) as (Hl & Hm & Hq).
    assert (Hnb : 0 <= Z.quot len 4) by (apply Z.quot_pos; lia).
    destruct (blocks_loop _ key _ _ _) as [h1|] eqn:B; [|discriminate].
    destruct (tail_switch key (Z.quot len 4) len h1) as [h2|] eqn:T; [|discriminate].
    destruct (Z.eq_dec (len mod 4) 0) as [Z0|NZ].
    + destruct (Z.eq_dec len 0) as [->|Hpos]; [lia|].
      rewrite <- (Z2Nat.id (Z.quot len 4)) in B at 3 by lia.
      apply blocks_loop_some_bounds in B; lia.
    + apply (tail_switch_some_bounds key len h1 h2 Hlen NZ T).
  - intros Hle. destruct (murmurhash32_total key len seed) as [h E]; [lia|].
    exists h. split; [exact E|].
    unfold murmurhash32 in E.
    destruct (blocks_loop _ key _ _ _) as [h1|]; [|discriminate].
    destruct (tail_switch key (Z.quot len 4) len h1) as [h2|]; [|discriminate].
    injection E as <-. apply fmix32_range.
Qed.

Lemma murmurhash32_defined_iff_witness :
  (exists h, murmurhash32 (list_byte_of_string "abcde") 5 42 = Some h /\ 0 <= h < 2 ^ 32)
  <-> 5 <= Z.of_nat (length (list_byte_of_string "abcde")).
Proof.
  apply (murmurhash32_defined_iff (list_byte_of_string "abcde") 5 42). lia.
Defined.

(** X2.  [murmurhash32] never looks past the first [len] bytes: bytes
    appended to the array, or cut off after [len], leave the hash as it
    is. *)
Theorem murmurhash32_reads_only_len (key extra : list byte) (len seed : Z) :
  0 <= len <= Z.of_nat (length key) ->
  murmurhash32 (key ++ extra) len seed = murmurhash32 key len seed /\
  murmurhash32 (firstn (Z.to_nat len) key) len seed = murmurhash32 key len seed.
Proof.
  intros H. split.
  - apply murmurhash32_ext; [lia|]. intros q Hq. apply load_app_l. lia.
  - apply murmurhash32_ext; [lia|]. intros q Hq. apply load_firstn. lia.
Qed.

Lemma murmurhash32_reads_only_len_witness :
  murmurhash32 (list_byte_of_string "abcde" ++ list_byte_of_string "xyz") 5 42
  = murmurhash32 (list_byte_of_string "abcde") 5 42 /\
  murmurhash32 (firstn (Z.to_nat 5) (list_byte_of_string "abcde")) 5 42
  = murmurhash32 (list_byte_of_string "abcde") 5 42.
Proof.
  apply (murmurhash32_reads_only_len
           (list_byte_of_string "abcde") (list_byte_of_string "xyz") 5 42).
  cbn. lia.
Defined.

Lemma blocks_loop_range (data : list byte) (nblocks : Z) :
  forall (k : nat) (h1 r : Z),
    0 <= h1 < 2 ^ 32 ->
    blocks_loop (S k) data nblocks (- Z.of_nat k) h1 = Some r ->
    0 <= r < 2 ^ 32.
Proof.
  induction k as [|k IH]; intros h1 r Hh E.
  - cbn in E. injection E as <-. exact Hh.
  - rewrite blocks_loop_step in E by lia.
    destruct (load32 data (4 * (nblocks + - Z.of_nat (S k)))) as [w|]; [|discriminate].
    replace (- Z.of_nat (S k) + 1) with (- Z.of_nat k) in E by lia.
    apply (IH _ _ (mix_h1_range _ _) E).
Qed.

(** X4.  When [len mod 4 = 1] the last byte does reach the hash: two
    arrays that agree on everything before it and differ in it hash
    differently. *)
Theorem murmurhash32_last_byte_counts (key key' : list byte) (len seed : Z) (t t' : byte) :
  0 <= len -> len mod 4 = 1 ->
  0 <= seed < 2 ^ 32 ->
  (forall q, 0 <= q < len - 1 -> load key q = load key' q) ->
  load key (len - 1) = Some t ->
  load key' (len - 1) = Some t' ->
  t <> t' ->
  murmurhash32 key len seed <> murmurhash32 key' len seed.
Proof.
  intros Hlen Hmod Hseed Hagree Lt Lt' Hne. unfold murmurhash32.
  destruct (land3_cases len Hlen) as (Hl & Hm & Hq).
  assert (Hnb : 0 <= Z.quot len 4) by (apply Z.quot_pos; lia).
  pose proof (blocks_loop_ext key key' (Z.quot len 4) (Z.to_nat (Z.quot len 4)) seed) as E.
  rewrite Z2Nat.id in E by lia.
  rewrite E by (intros q Hr; apply Hagree; lia).
  destruct (blocks_loop _ key' _ _ _) as [h|] eqn:B.
  2:{ pose proof (load_some_bounds _ _ _ Lt') as Bd.
      destruct (blocks_loop_total key' (Z.quot len 4) (Z.to_nat (Z.quot len 4)) seed)
        as [h Hh]; [lia|lia|].
      rewrite Z2Nat.id in Hh by lia. congruence. }
  assert (Rh : 0 <= h < 2 ^ 32).
  { rewrite <- (Z2Nat.id (Z.quot len 4)) in B at 3 by lia.
    apply (blocks_loop_range _ _ _ _ _ Hseed B). }
  unfold tail_switch. rewrite Hl, Hmod.
  replace (Z.quot len 4 * 4) with (len - 1) by lia.
  rewrite Lt, Lt'. cbv zeta. rewrite !Z.lxor_0_l.
  intros C. injection C as C.
  apply fmix32_injective in C;
    try (apply lxor_range; [apply lxor_range; [exact Rh|apply mix_k1_range]
                           |apply wrap32_range]).
  apply lxor_cancel_r, lxor_cancel_l, mix_k1_injective in C.
  pose proof (byte.unsigned_range t) as Ut.
  pose proof (byte.unsigned_range t') as Ut'.
  rewrite !wrap32_small in C by lia.
  apply byte.unsigned_inj in C. contradiction.
Qed.

Lemma murmurhash32_last_byte_counts_witness :
  murmurhash32 (list_byte_of_string "abcdX") 5 42
  <> murmurhash32 (list_byte_of_string "abcdY") 5 42.
Proof.
  apply (murmurhash32_last_byte_counts
           (list_byte_of_string "abcdX") (list_byte_of_string "abcdY") 5 42 "X" "Y").
  - lia.
  - reflexivity.
  - lia.
  - intros q Hq.
    assert (C : q = 0 \/ q = 1 \/ q = 2 \/ q = 3) by lia.
    destruct C as [->|[->|[->| ->]]]; reflexivity.
  - reflexivity.
  - reflexivity.
  - discriminate.
Defined.

(** X5.  On keys of at most one byte [murmurhash32] is the reference
    MurmurHash3: neither the block loop nor a dropped tail case is
    involved. *)
Theorem murmurhash32_short_keys_reference (key : list byte) (seed : Z) :
  (length key <= 1)%nat ->
  murmurhash32 key (Z.of_nat (length key)) seed
  = Some (murmur3_32_reference key seed).
Proof.
  intros H. destruct key as [|b [|b' rest]]; [reflexivity| |cbn in H; lia].
  unfold murmurhash32, murmur3_32_reference.
  cbn [length Z.of_nat Pos.of_succ_nat reference_body].
  change (Z.quot 1 4) with 0. cbn [Z.to_nat blocks_loop Z.opp Z.eqb].
  unfold tail_switch. cbn [Z.land Pos.land Z.mul load Z.ltb Z.compare Z.to_nat nth_error Z.of_N].
  cbv zeta. rewrite Z.lxor_0_l, le_combine_1. reflexivity.
Qed.

Lemma murmurhash32_short_keys_reference_witness :
  murmurhash32 (list_byte_of_string "a") (Z.of_nat (length (list_byte_of_string "a"))) 42
  = Some (murmur3_32_reference (list_byte_of_string "a") 42).
Proof.
  apply (murmurhash32_short_keys_reference (list_byte_of_string "a") 42).
  cbn. lia.
Defined.

(** ** More on level-1 labels *)

Lemma packed_low_bits (distance c1 c2 c3 : Z) :
  Z.land (packed distance c1 c2 c3) 3 = Z.land c3 3.
Proof.
  unfold packed, wrap32, wrap64. change 3 with (Z.ones 2).
  rewrite <- !Z.land_ones by lia. Z.bitblast. all: finish_bits.
Qed.

Lemma land3_code (c : Z) : 0 <= c <= 3 -> Z.land c 3 = c.
Proof.
  intros H. change 3 with (Z.ones 2). rewrite Z.land_ones by lia.
  apply Z.mod_small. lia.
Qed.

Lemma init_core1_some (alphabet : byte -> Z) mem begin distance s e c :
  init_core1 alphabet mem begin distance s e = Some c ->
  exists b1 b2 b3,
    load mem begin = Some b1 /\
    load mem (begin + distance - 2) = Some b2 /\
    load mem (begin + distance - 1) = Some b3 /\
    c = {| label := packed distance (alphabet b1) (alphabet b2) (alphabet b3);
           start := s; end_ := e |}.
Proof.
  unfold init_core1.
  destruct (load mem begin) as [b1|]; [|discriminate].
  destruct (load mem (begin + distance - 2)) as [b2|]; [|discriminate].
  destruct (load mem (begin + distance - 1)) as [b3|]; [|discriminate].
  intros E. injection E as <-. now exists b1, b2, b3.
Qed.

(** X8.  The two low bits of a level-1 label are the code of the span's
    last byte, so the six comparisons of two cores built by [init_core1]
    compare the codes of the last bytes of their spans and nothing else. *)
Theorem level1_comparisons_see_last_code (alphabet : byte -> Z)
    (mem mem' : list byte) (begin distance s e begin' distance' s' e' : Z)
    (c c' : core) (b b' : byte) :
  init_core1 alphabet mem begin distance s e = Some c ->
  init_core1 alphabet mem' begin' distance' s' e' = Some c' ->
  load mem (begin + distance - 1) = Some b ->
  load mem' (begin' + distance' - 1) = Some b' ->
  0 <= alphabet b <= 3 ->
  0 <= alphabet b' <= 3 ->
  core_eq c c' = (alphabet b =? alphabet b') /\
  core_neq c c' = negb (alphabet b =? alphabet b') /\
  core_lt c c' = (alphabet b <? alphabet b') /\
  core_gt c c' = (alphabet b >? alphabet b') /\
  core_leq c c' = (alphabet b <=? alphabet b') /\
  core_geq c c' = (alphabet b >=? alphabet b').
Proof.
  intros I I' L L' R R'.
  apply init_core1_some in I. destruct I as (b1 & b2 & b3 & _ & _ & L3 & ->).
  apply init_core1_some in I'. destruct I' as (b1' & b2' & b3' & _ & _ & L3' & ->).
  rewrite L in L3. injection L3 as <-.
  rewrite L' in L3'. injection L3' as <-.
  unfold core_eq, core_neq, core_lt, core_gt, core_leq, core_geq. cbn [label].
  rewrite !packed_low_bits, !land3_code by assumption.
  repeat split.
Qed.

Lemma level1_comparisons_see_last_code_witness :
  let c := {| label := 193; start := 1; end_ := 6 |} in
  let c' := {| label := 99; start := 0; end_ := 3 |} in
  core_eq c c' = (dna_alphabet "C" =? dna_alphabet "T") /\
  core_neq c c' = negb (dna_alphabet "C" =? dna_alphabet "T") /\
  core_lt c c' = (dna_alphabet "C" <? dna_alphabet "T") /\
  core_gt c c' = (dna_alphabet "C" >? dna_alphabet "T") /\
  core_leq c c' = (dna_alphabet "C" <=? dna_alphabet "T") /\
  core_geq c c' = (dna_alphabet "C" >=? dna_alphabet "T").
Proof.
  apply (level1_comparisons_see_last_code dna_alphabet
           (list_byte_of_string "GATTACA") (list_byte_of_string "GATTACA")
           1 5 1 6 0 3 0 3).
  - reflexivity.
  - reflexivity.
  - reflexivity.
  - reflexivity.
  - cbn. lia.
  - cbn. lia.
Defined.

Lemma packed_decode (distance c1 c2 c3 : Z) :
  2 <= distance <= 2 ^ 26 + 1 ->
  0 <= c1 <= 3 -> 0 <= c2 <= 3 -> 0 <= c3 <= 3 ->
  Z.shiftr (packed distance c1 c2 c3) 6 = distance - 2 /\
  Z.land (Z.shiftr (packed distance c1 c2 c3) 4) 3 = c1 /\
  Z.land (Z.shiftr (packed distance c1 c2 c3) 2) 3 = c2 /\
  Z.land (packed distance c1 c2 c3) 3 = c3.
Proof.
  intros Hd H1 H2 H3.
  rewrite packed_wraps_pack_label by lia.
  rewrite pack_label_fits by lia.
  unfold pack_label.
  assert (Ed : distance - 2 = Z.land (distance - 2) (Z.ones 26)).
  { rewrite Z.land_ones by lia. symmetry. apply Z.mod_small. lia. }
  assert (E1 : c1 = Z.land c1 (Z.ones 2)) by (symmetry; now apply land3_code).
  assert (E2 : c2 = Z.land c2 (Z.ones 2)) by (symmetry; now apply land3_code).
  assert (E3 : c3 = Z.land c3 (Z.ones 2)) by (symmetry; now apply land3_code).
  change 3 with (Z.ones 2).
  repeat split.
  - rewrite Ed at 2. rewrite Ed, E1, E2, E3. Z.bitblast.
  - rewrite E1 at 2. rewrite Ed, E1, E2, E3. Z.bitblast.
  - rewrite E2 at 2. rewrite Ed, E1, E2, E3. Z.bitblast.
  - rewrite E3 at 2. rewrite Ed, E1, E2, E3. Z.bitblast.
Qed.

(** X9.  For [distance <= 2^26 + 1] a level-1 label can be taken apart
    again: its bits from 6 up give [distance - 2], bits 4-5, 2-3 and 0-1
    the codes of the first, second-to-last and last byte. *)
Theorem level1_label_decodes (alphabet : byte -> Z) (mem : list byte)
    (begin distance s e : Z) (c : core) (b1 b2 b3 : byte) :
  init_core1 alphabet mem begin distance s e = Some c ->
  load mem begin = Some b1 ->
  load mem (begin + distance - 2) = Some b2 ->
  load mem (begin + distance - 1) = Some b3 ->
  2 <= distance <= 2 ^ 26 + 1 ->
  0 <= alphabet b1 <= 3 -> 0 <= alphabet b2 <= 3 -> 0 <= alphabet b3 <= 3 ->
  distance = Z.shiftr (label c) 6 + 2 /\
  alphabet b1 = Z.land (Z.shiftr (label c) 4) 3 /\
  alphabet b2 = Z.land (Z.shiftr (label c) 2) 3 /\
  alphabet b3 = Z.land (label c) 3.
Proof.
  intros I L1 L2 L3 Hd H1 H2 H3.
  rewrite (init_core1_defined alphabet mem begin distance s e b1 b2 b3 L1 L2 L3) in I.
  injection I as <-. cbn [label].
  destruct (packed_decode distance _ _ _ Hd H1 H2 H3) as (D0 & D1 & D2 & D3).
  rewrite D0, D1, D2, D3. repeat split. lia.
Qed.

Lemma level1_label_decodes_witness :
  let c := {| label := 193; start := 1; end_ := 6 |} in
  5 = Z.shiftr (label c) 6 + 2 /\
  dna_alphabet "A" = Z.land (Z.shiftr (label c) 4) 3 /\
  dna_alphabet "A" = Z.land (Z.shiftr (label c) 2) 3 /\
  dna_alphabet "C" = Z.land (label c) 3.
Proof.
  apply (level1_label_decodes dna_alphabet (list_byte_of_string "GATTACA") 1 5 1 6).
  - reflexivity.
  - reflexivity.
  - reflexivity.
  - reflexivity.
  - lia.
  - cbn. lia.
  - cbn. lia.
  - cbn. lia.
Defined.

Lemma wrap32_lor (a b : Z) : wrap32 (Z.lor a b) = Z.lor (wrap32 a) (wrap32 b).
Proof.
  unfold wrap32. rewrite <- !Z.land_ones by lia. apply Z.land_lor_distr_l.
Qed.

Lemma wrap32_shifted_distance (x : Z) :
  wrap32 (wrap64 (Z.shiftl (wrap64 x) 6)) = wrap32 (x * 64).
Proof.
  rewrite wrap32_wrap64, Z.shiftl_mul_pow2 by lia. change (2 ^ 6) with 64.
  unfold wrap32 at 1. rewrite <- Z.mul_mod_idemp_l by lia.
  fold (wrap32 (wrap64 x)). rewrite wrap32_wrap64.
  unfold wrap32. now rewrite Z.mul_mod_idemp_l by lia.
Qed.

Lemma packed_period (distance c1 c2 c3 : Z) :
  packed (distance + 2 ^ 26) c1 c2 c3 = packed distance c1 c2 c3.
Proof.
  unfold packed. rewrite !wrap32_lor, !wrap32_shifted_distance.
  replace ((distance + 2 ^ 26 - 2) * 64) with ((distance - 2) * 64 + 1 * 2 ^ 32) by lia.
  unfold wrap32 at 1. rewrite Z.mod_add by lia. reflexivity.
Qed.

(** X10.  The label keeps only 26 bits of [distance - 2]: two spans with
    the same first, second-to-last and last byte whose lengths differ by
    [2^26] get the same label. *)
Theorem level1_labels_collide (alphabet : byte -> Z) (mem mem' : list byte)
    (begin begin' distance s e s' e' : Z) (b1 b2 b3 : byte) :
  load mem begin = Some b1 ->
  load mem (begin + distance - 2) = Some b2 ->
  load mem (begin + distance - 1) = Some b3 ->
  load mem' begin' = Some b1 ->
  load mem' (begin' + (distance + 2 ^ 26) - 2) = Some b2 ->
  load mem' (begin' + (distance + 2 ^ 26) - 1) = Some b3 ->
  exists c c',
    init_core1 alphabet mem begin distance s e = Some c /\
    init_core1 alphabet mem' begin' (distance + 2 ^ 26) s' e' = Some c' /\
    label c' = label c.
Proof.
  intros L1 L2 L3 M1 M2 M3.
  rewrite (init_core1_defined alphabet mem begin distance s e b1 b2 b3 L1 L2 L3).
  rewrite (init_core1_defined alphabet mem' begin' _ s' e' b1 b2 b3 M1 M2 M3).
  do 2 eexists. split; [reflexivity|]. split; [reflexivity|].
  cbn [label]. apply packed_period.
Qed.

Lemma level1_labels_collide_witness :
  exists c c',
    init_core1 dna_alphabet (list_byte_of_string "TTT") 0 3 0 3 = Some c /\
    init_core1 dna_alphabet (repeat "T"%byte (Z.to_nat 67108867)) 0 (3 + 2 ^ 26)
               0 67108867 = Some c' /\
    label c' = label c.
Proof.
  apply (level1_labels_collide dna_alphabet
           (list_byte_of_string "TTT") (repeat "T"%byte (Z.to_nat 67108867))
           0 0 3 0 3 0 67108867 "T" "T" "T").
  - reflexivity.
  - reflexivity.
  - reflexivity.
  - apply load_repeat. rewrite Z2Nat.id; lia.
  - apply load_repeat. rewrite Z2Nat.id; lia.
  - apply load_repeat. rewrite Z2Nat.id; lia.
Defined.

Lemma packed_invalid_last (distance c1 c2 : Z) :
  packed distance c1 c2 (-1) = 2 ^ 32 - 1.
Proof.
  unfold packed. change (wrap64 (-1)) with (Z.ones 64).
  change (2 ^ 32 - 1) with (Z.ones 32).
  unfold wrap32. rewrite <- Z.land_ones by lia. Z.bitblast.
Qed.

(** X11.  A table entry of -1 for the last byte of the span fills the
    label: the [int] -1 is converted to [uint64_t] for the [|], so
    [init_core1] and [init_core2] give label 0xFFFFFFFF whatever the
    distance is and whatever valid codes the other two bytes have. *)
Theorem level1_negative_last_code (table : byte -> Z) (mem : list byte)
    (begin distance s e : Z) (b1 b2 b : byte) (c : core) :
  load mem begin = Some b1 ->
  load mem (begin + distance - 2) = Some b2 ->
  load mem (begin + distance - 1) = Some b ->
  0 <= table b1 -> 0 <= table b2 ->
  table b = -1 ->
  init_core1 table mem begin distance s e = Some c \/
  init_core2 table mem begin distance s e = Some c ->
  label c = 4294967295.
Proof.
  intros _ _ L _ _ Hb I.
  assert (I1 : init_core1 table mem begin distance s e = Some c).
  { destruct I as [I|I]; [exact I|].
    rewrite <- (init_core2_is_init_core1 table mem begin distance s e). exact I. }
  apply init_core1_some in I1. destruct I1 as (x1 & x2 & x3 & _ & _ & L3 & ->).
  rewrite L in L3. injection L3 as <-. cbn [label].
  rewrite Hb. apply packed_invalid_last.
Qed.

Lemma level1_negative_last_code_witness :
  exists c,
    init_core1 dna_alphabet (list_byte_of_string "GAN") 0 3 0 3 = Some c /\
    label c = 4294967295.
Proof.
  exists {| label := 4294967295; start := 0; end_ := 3 |}.
  split; [reflexivity|].
  apply (level1_negative_last_code dna_alphabet (list_byte_of_string "GAN")
           0 3 0 3 "G" "A" "N").
  - reflexivity.
  - reflexivity.
  - reflexivity.
  - cbn. lia.
  - cbn. lia.
  - reflexivity.
  - left. reflexivity.
Defined.

(** ** The order of the comparison macros *)

(** X12.  [core_eq] is an equivalence relation on cores, and [core_neq]
    is its negation. *)
Theorem core_eq_equivalence (a b c : core) :
  core_eq a a = true /\
  core_eq a b = core_eq b a /\
  (core_eq a b = true -> core_eq b c = true -> core_eq a c = true) /\
  core_neq a b = negb (core_eq a b).
Proof.
  unfold core_eq, core_neq. repeat split.
  - apply Z.eqb_refl.
  - apply Z.eqb_sym.
  - intros H1 H2. apply Z.eqb_eq in H1, H2. apply Z.eqb_eq. congruence.
Qed.

Lemma core_eq_equivalence_witness :
  let a := init_core4 10 0 0 in
  let b := init_core4 6 1 1 in
  let c := init_core4 4294967294 2 2 in
  core_eq a a = true /\
  core_eq a b = core_eq b a /\
  core_eq a c = true /\
  core_neq a b = negb (core_eq a b).
Proof.
  destruct (core_eq_equivalence (init_core4 10 0 0) (init_core4 6 1 1)
              (init_core4 4294967294 2 2)) as (R & S & T & N).
  split; [exact R|]. split; [exact S|]. split; [apply T; reflexivity|exact N].
Defined.

(** X13.  [core_leq] is a total preorder; [core_eq] is its symmetric
    part, [core_lt] its strict part, and [core_gt], [core_geq] are
    [core_lt], [core_leq] with the arguments exchanged. *)
Theorem core_order_total_preorder (a b c : core) :
  core_leq a a = true /\
  (core_leq a b = true -> core_leq b c = true -> core_leq a c = true) /\
  (core_leq a b = true \/ core_leq b a = true) /\
  core_eq a b = core_leq a b && core_leq b a /\
  core_lt a b = core_leq a b && negb (core_leq b a) /\
  core_gt a b = core_lt b a /\
  core_geq a b = core_leq b a.
Proof.
  unfold core_leq, core_eq, core_lt, core_gt, core_geq.
  set (x := Z.land (label a) 3). set (y := Z.land (label b) 3).
  set (z := Z.land (label c) 3).
  repeat split.
  - apply Z.leb_refl.
  - intros H1 H2. apply Z.leb_le in H1, H2. apply Z.leb_le. lia.
  - destruct (Z.leb_spec x y); [now left|right; apply Z.leb_le; lia].
  - destruct (Z.eqb_spec x y), (Z.leb_spec x y), (Z.leb_spec y x); cbn; lia || reflexivity.
  - destruct (Z.ltb_spec x y), (Z.leb_spec x y), (Z.leb_spec y x); cbn; lia || reflexivity.
  - rewrite Z.gtb_ltb. reflexivity.
  - rewrite Z.geb_leb. reflexivity.
Qed.

Lemma core_order_total_preorder_witness :
  let a := init_core4 5 2 2 in
  let b := init_core4 10 0 0 in
  let c := init_core4 7 1 1 in
  core_leq a a = true /\ core_leq a c = true /\
  (core_leq a b = true \/ core_leq b a = true).
Proof.
  destruct (core_order_total_preorder (init_core4 5 2 2) (init_core4 10 0 0)
              (init_core4 7 1 1)) as (R & T & O & _).
  split; [exact R|]. split; [apply T; reflexivity|exact O].
Defined.

(** X14.  Of [core_lt], [core_eq], [core_gt] exactly one holds for any
    two cores. *)
Theorem core_trichotomy (a b : core) :
  (core_lt a b = true /\ core_eq a b = false /\ core_gt a b = false) \/
  (core_lt a b = false /\ core_eq a b = true /\ core_gt a b = false) \/
  (core_lt a b = false /\ core_eq a b = false /\ core_gt a b = true).
Proof.
  unfold core_eq, core_lt, core_gt. rewrite Z.gtb_ltb.
  set (x := Z.land (label a) 3). set (y := Z.land (label b) 3).
  destruct (Z.ltb_spec x y), (Z.eqb_spec x y), (Z.ltb_spec y x); try lia; auto.
Qed.

(** ** More on [init_core3] *)

(** X15.  When the cores of the run are non-empty ranges ordered by start
    and by end, the core [init_core3] builds is a non-empty range that
    contains the range of every core of the run. *)
Theorem init_core3_covers_run (cores : list core) (begin distance : Z) :
  2 <= distance -> 0 <= begin ->
  begin + distance <= Z.of_nat (length cores) ->
  ordered_run cores begin distance ->
  exists c,
    init_core3 cores begin distance = Some c /\
    start c < end_ c /\
    forall i x, begin <= i < begin + distance -> load cores i = Some x ->
                start c <= start x /\ end_ x <= end_ c.
Proof.
  intros Hd Hb Hn [Hpos Hord].
  destruct (run_loads cores begin distance Hd Hb Hn) as (x1 & x2 & x3 & L1 & L2 & L3).
  eexists. split; [exact (init_core3_defined cores begin distance x1 x2 x3 L1 L2 L3)|].
  cbn [start end_]. split.
  - pose proof (Hpos begin x1 ltac:(lia) L1).
    pose proof (Hord begin (begin + distance - 1) x1 x3 ltac:(lia) ltac:(lia) ltac:(lia) L1 L3).
    lia.
  - intros i x Hi Lx. split.
    + apply (Hord begin i x1 x ltac:(lia) ltac:(lia) ltac:(lia) L1 Lx).
    + apply (Hord i (begin + distance - 1) x x3 ltac:(lia) ltac:(lia) ltac:(lia) Lx L3).
Qed.

Lemma init_core3_covers_run_witness :
  exists c,
    init_core3 sample_cores 1 4 = Some c /\
    start c < end_ c /\
    forall i x, 1 <= i < 1 + 4 -> load sample_cores i = Some x ->
                start c <= start x /\ end_ x <= end_ c.
Proof.
  apply (init_core3_covers_run sample_cores 1 4).
  - lia.
  - lia.
  - cbn. lia.
  - split.
    + intros i x Hi L.
      assert (C : i = 1 \/ i = 2 \/ i = 3 \/ i = 4) by lia.
      destruct C as [->|[->|[->| ->]]]; injection L as <-; cbn; lia.
    + intros i j x y Hi Hij Hj Lx Ly.
      assert (Ci : i = 1 \/ i = 2 \/ i = 3 \/ i = 4) by lia.
      assert (Cj : j = 1 \/ j = 2 \/ j = 3 \/ j = 4) by lia.
      destruct Ci as [->|[->|[->| ->]]]; destruct Cj as [->|[->|[->| ->]]];
        try lia; injection Lx as <-; injection Ly as <-; cbn; lia.
Defined.

(** X7.  [init_core3] tells apart any two runs whose four hashed words
    (the three labels and [distance - 2], each taken modulo 2^32) differ
    in exactly one position: their labels differ.  In particular two runs
    with the same three labels and different lengths get different
    labels. *)
Theorem init_core3_one_word_apart (cores cores' : list core)
    (begin distance begin' distance' : Z) (x1 x2 x3 y1 y2 y3 : core)
    (pre post : list Z) (w w' : Z) :
  load cores begin = Some x1 ->
  load cores (begin + distance - 2) = Some x2 ->
  load cores (begin + distance - 1) = Some x3 ->
  load cores' begin' = Some y1 ->
  load cores' (begin' + distance' - 2) = Some y2 ->
  load cores' (begin' + distance' - 1) = Some y3 ->
  [label x1; label x2; label x3; distance - 2] = pre ++ w :: post ->
  [label y1; label y2; label y3; distance' - 2] = pre ++ w' :: post ->
  wrap32 w <> wrap32 w' ->
  exists c c',
    init_core3 cores begin distance = Some c /\
    init_core3 cores' begin' distance' = Some c' /\
    label c <> label c'.
Proof.
  intros L1 L2 L3 M1 M2 M3 E E' Hne.
  rewrite (init_core3_defined cores begin distance x1 x2 x3 L1 L2 L3).
  rewrite (init_core3_defined cores' begin' distance' y1 y2 y3 M1 M2 M3).
  do 2 eexists. split; [reflexivity|]. split; [reflexivity|].
  cbn [label]. rewrite E, E'. intros C.
  apply hash_words_one_word in C; [contradiction|lia].
Qed.

Lemma init_core3_one_word_apart_witness :
  exists c c',
    init_core3 sample_cores 1 4 = Some c /\
    init_core3 [ {| label := 77; start := 4; end_ := 7 |};
                 {| label := 130; start := 10; end_ := 14 |};
                 {| label := 66; start := 13; end_ := 16 |} ] 0 3 = Some c' /\
    label c <> label c'.
Proof.
  apply (init_core3_one_word_apart sample_cores
           [ {| label := 77; start := 4; end_ := 7 |};
             {| label := 130; start := 10; end_ := 14 |};
             {| label := 66; start := 13; end_ := 16 |} ]
           1 4 0 3
           {| label := 77; start := 4; end_ := 7 |}
           {| label := 130; start := 10; end_ := 14 |}
           {| label := 66; start := 13; end_ := 16 |}
           {| label := 77; start := 4; end_ := 7 |}
           {| label := 130; start := 10; end_ := 14 |}
           {| label := 66; start := 13; end_ := 16 |}
           [77; 130; 66] [] 2 1).
  - reflexivity.
  - reflexivity.
  - reflexivity.
  - reflexivity.
  - reflexivity.
  - reflexivity.
  - reflexivity.
  - reflexivity.
  - vm_compute. discriminate.
Defined.


(** ** Instances of the properties stated earlier *)

Lemma murmurhash32_drops_tail_witness :
  murmurhash32 (list_byte_of_string "abcdXY") 6 42
  = murmurhash32 (list_byte_of_string "abcdPQ") 6 42.
Proof.
  apply (murmurhash32_drops_tail
           (list_byte_of_string "abcdXY") (list_byte_of_string "abcdPQ") 6 42).
  - cbn. lia.
  - cbn. lia.
  - left. reflexivity.
  - intros q Hq. change (4 * Z.quot 6 4) with 4 in Hq.
    assert (C : q = 0 \/ q = 1 \/ q = 2 \/ q = 3) by lia.
    destruct C as [->|[->|[->| ->]]]; reflexivity.
Defined.

Lemma init_core2_on_reversed_span_witness :
  init_core2 dna_rc_alphabet (rev (list_byte_of_string "GAT"))
             0 (Z.of_nat (length (list_byte_of_string "GAT"))) 0 3
  = Some {| label := packed (Z.of_nat (length (list_byte_of_string "GAT")))
                       (dna_rc_alphabet "T") (dna_rc_alphabet "A") (dna_rc_alphabet "G");
            start := 0; end_ := 3 |}.
Proof.
  apply (init_core2_on_reversed_span dna_rc_alphabet (list_byte_of_string "GAT")
           0 3 "G" "A" "T").
  - cbn. lia.
  - reflexivity.
  - reflexivity.
  - reflexivity.
Defined.

(** ** The hash on whole words, and the seed *)

Lemma length_ulabel_bytes (ws : list Z) :
  Z.of_nat (length (ulabel_bytes ws)) = 4 * Z.of_nat (length ws).
Proof.
  induction ws as [|w ws IH]; [reflexivity|].
  unfold ulabel_bytes in *. cbn [flat_map length].
  rewrite length_app, length_le_split. lia.
Qed.

Lemma ulabel_bytes_app (ws ws' : list Z) :
  ulabel_bytes (ws ++ ws') = ulabel_bytes ws ++ ulabel_bytes ws'.
Proof. apply flat_map_app. Qed.

Lemma blocks_loop_words (seen ws : list Z) (h1 : Z) :
  blocks_loop (S (length ws)) (ulabel_bytes (seen ++ ws))
              (Z.of_nat (length (seen ++ ws))) (- Z.of_nat (length ws)) h1
  = Some (absorb ws h1).
Proof.
  revert seen h1. induction ws as [|w ws IH]; intros seen h1; [reflexivity|].
  rewrite blocks_loop_step by (cbn [length]; lia).
  rewrite (load32_word _ (ulabel_bytes seen) (ulabel_bytes ws) w).
  - replace (- Z.of_nat (length (w :: ws)) + 1) with (- Z.of_nat (length ws))
      by (cbn [length]; lia).
    replace (seen ++ w :: ws) with ((seen ++ [w]) ++ ws) by (now rewrite <- app_assoc).
    rewrite IH. cbn [absorb fold_left]. now rewrite mix_k1_wrap32.
  - rewrite ulabel_bytes_app. reflexivity.
  - rewrite length_ulabel_bytes, length_app. cbn [length]. lia.
Qed.

(** X18.  On the image of an array of 32-bit words [murmurhash32] is the
    word-by-word hash: the words are mixed into the state in order, the
    byte length is xored in and the finalizer applied; the bytes are read
    back as the words that were stored. *)
Theorem murmurhash32_of_words (ws : list Z) (seed : Z) :
  murmurhash32 (ulabel_bytes ws) (4 * Z.of_nat (length ws)) seed
  = Some (hash_words ws seed).
Proof.
  unfold murmurhash32.
  replace (Z.quot (4 * Z.of_nat (length ws)) 4) with (Z.of_nat (length ws))
    by (rewrite Z.mul_comm, Z.quot_mul; lia).
  rewrite Nat2Z.id.
  pose proof (blocks_loop_words [] ws seed) as B. cbn [app] in B. rewrite B.
  unfold tail_switch.
  replace (Z.land (4 * Z.of_nat (length ws)) 3) with 0.
  - reflexivity.
  - change 3 with (Z.ones 2). rewrite Z.land_ones by lia.
    rewrite Z.mul_comm. symmetry. apply (Z.mod_mul _ 4). lia.
Qed.

Lemma blocks_loop_injective (data : list byte) (nblocks : Z) :
  forall (k : nat) (h h' r : Z),
    0 <= h < 2 ^ 32 -> 0 <= h' < 2 ^ 32 ->
    blocks_loop (S k) data nblocks (- Z.of_nat k) h = Some r ->
    blocks_loop (S k) data nblocks (- Z.of_nat k) h' = Some r ->
    h = h'.
Proof.
  induction k as [|k IH]; intros h h' r Hh Hh' E E'.
  - cbn in E, E'. congruence.
  - rewrite blocks_loop_step in E, E' by lia.
    destruct (load32 data (4 * (nblocks + - Z.of_nat (S k)))) as [w|]; [|discriminate].
    replace (- Z.of_nat (S k) + 1) with (- Z.of_nat k) in E, E' by lia.
    pose proof (IH _ _ _ (mix_h1_range _ _) (mix_h1_range _ _) E E') as M.
    apply mix_h1_injective in M; try assumption; try apply mix_k1_range.
    now apply lxor_cancel_r in M.
Qed.

Lemma tail_switch_xor (key : list byte) (nblocks len : Z) :
  exists o : option Z,
    (forall k, o = Some k -> 0 <= k < 2 ^ 32) /\
    forall h1, tail_switch key nblocks len h1
               = match o with Some k => Some (Z.lxor h1 k) | None => None end.
Proof.
  unfold tail_switch.
  destruct (Z.land len 3) as [|[[|p|]|[|p|]|]|p].
  all: try (exists (Some 0); split;
            [intros k E; injection E as <-; lia
            |intros h1; now rewrite Z.lxor_0_r]).
  - destruct (load key (nblocks * 4 + 2)) as [t|].
    + exists (Some 0). split; [intros k E; injection E as <-; lia|].
      intros h1. now rewrite Z.lxor_0_r.
    + exists None. split; [discriminate|reflexivity].
  - destruct (load key (nblocks * 4 + 1)) as [t|].
    + exists (Some 0). split; [intros k E; injection E as <-; lia|].
      intros h1. now rewrite Z.lxor_0_r.
    + exists None. split; [discriminate|reflexivity].
  - destruct (load key (nblocks * 4)) as [t|].
    + eexists (Some _). split; [intros k E; injection E as <-; apply mix_k1_range|].
      reflexivity.
    + exists None. split; [discriminate|reflexivity].
Qed.

Lemma murmurhash32_seed_injective (key : list byte) (len seed seed' h : Z) :
  0 <= len ->
  0 <= seed < 2 ^ 32 -> 0 <= seed' < 2 ^ 32 ->
  murmurhash32 key len seed = Some h ->
  murmurhash32 key len seed' = Some h ->
  seed = seed'.
Proof.
  intros Hlen Hs Hs'. unfold murmurhash32.
  assert (Hnb : 0 <= Z.quot len 4) by (apply Z.quot_pos; lia).
  destruct (blocks_loop _ key _ _ seed) as [a|] eqn:A; [|discriminate].
  destruct (blocks_loop _ key _ _ seed') as [a'|] eqn:A'; [|discriminate].
  rewrite <- (Z2Nat.id (Z.quot len 4)) in A at 3 by lia.
  rewrite <- (Z2Nat.id (Z.quot len 4)) in A' at 3 by lia.
  pose proof (blocks_loop_range _ _ _ _ _ Hs A) as Ra.
  pose proof (blocks_loop_range _ _ _ _ _ Hs' A') as Ra'.
  destruct (tail_switch_xor key (Z.quot len 4) len) as (o & Ro & T).
  rewrite !T. destruct o as [k|]; [|discriminate].
  specialize (Ro k eq_refl).
  intros E E'. injection E as E. injection E' as E'.
  rewrite <- E' in E.
  apply fmix32_injective in E;
    try (apply lxor_range; [apply lxor_range; assumption|apply wrap32_range]).
  apply lxor_cancel_r, lxor_cancel_r in E. subst a'.
  apply (blocks_loop_injective _ _ _ _ _ _ Hs Hs' A A').
Qed.

(** X19.  For a fixed key the seed always shows: two different 32-bit seeds
    never give the same hash. *)
Theorem murmurhash32_seed_counts (key : list byte) (len seed seed' : Z) :
  0 <= len <= Z.of_nat (length key) ->
  0 <= seed < 2 ^ 32 -> 0 <= seed' < 2 ^ 32 ->
  seed <> seed' ->
  murmurhash32 key len seed <> murmurhash32 key len seed'.
Proof.
  intros Hlen Hs Hs' Hne E.
  destruct (murmurhash32_total key len seed Hlen) as [h Hh].
  rewrite Hh in E. symmetry in E.
  apply Hne.
  apply (murmurhash32_seed_injective key len seed seed' h); try assumption; lia.
Qed.

Lemma murmurhash32_seed_counts_witness :
  murmurhash32 (list_byte_of_string "abcde") 5 42
  <> murmurhash32 (list_byte_of_string "abcde") 5 43.
Proof.
  apply (murmurhash32_seed_counts (list_byte_of_string "abcde") 5 42 43).
  - cbn. lia.
  - lia.
  - lia.
  - discriminate.
Defined.
